(** * automix_solve.py: the mix specification parser, the hall augmenter and
      the diagnostics reporter, embedded in Rocq.

    Conventions of the embedding.

    - A Python [str] is a [string]; a character is a code point below 256,
      and the character classes of [str.isspace], [str.lower] and of the
      [re] module ([\s], [\w], [\S], [.]) are written out for that range.
    - A Python [float] is a binary64 primitive [float]; [*], [/], [<], [>],
      [abs] are the IEEE operations of [PrimFloat].
    - A [dict] keyed by strings or integers is a [gmap]; the dictionaries
      that are iterated ([target_weights], [achieved_mix]) are
      insertion-ordered association lists.
    - A call that can raise returns in the error monad [res].
    - [scipy.optimize.minimize] is not part of the repository: what it
      returns enters [main_report] as the arguments [x] and
      [solver_success]. *)

From Stdlib Require Import Floats ZArith Ascii String DecimalString.
From stdpp Require Import gmap strings list.

Set Warnings "-inexact-float".

Local Open Scope string_scope.
Local Open Scope list_scope.

(** ** Exceptions *)

Inductive exn : Type :=
| ValueError (arg : string)
| KeyError (key : string)
| OverflowError.

Inductive res (A : Type) : Type :=
| Ret (a : A)
| Raise (e : exn).
Arguments Ret {A} a.
Arguments Raise {A} e.

#[global] Instance res_ret : MRet res := fun A a => Ret a.
#[global] Instance res_bind : MBind res := fun A B f m =>
  match m with
  | Ret a => f a
  | Raise e => Raise e
  end.

Definition returns {A} (m : res A) : Prop := exists a, m = Ret a.

(** ** Characters *)

Module Char.

Definition code (c : ascii) : N := N_of_ascii c.

Definition between (lo hi : N) (c : ascii) : bool :=
  ((lo <=? code c) && (code c <=? hi))%N.

(** [str.isspace] and the class [\s] of a [str] pattern. *)
Definition isspace (c : ascii) : bool :=
  between 9 13 c || between 28 32 c || (code c =? 133)%N || (code c =? 160)%N.

(** The class [[0-9]]. *)
Definition isdigit (c : ascii) : bool := between 48 57 c.

(** The class [\w] of a [str] pattern: alphanumeric characters and the
    underscore. *)
Definition isword (c : ascii) : bool :=
  between 48 57 c || between 65 90 c || (code c =? 95)%N || between 97 122 c
  || (code c =? 170)%N || between 178 179 c || (code c =? 181)%N
  || between 185 186 c || between 188 190 c || between 192 214 c
  || between 216 246 c || between 248 255 c.

(** The class [[0-9.]]. *)
Definition isnum (c : ascii) : bool := isdigit c || (code c =? 46)%N.

(** The class [\S]. *)
Definition nonspace (c : ascii) : bool := negb (isspace c).

(** The class [.] (without DOTALL): everything but the line feed. *)
Definition dot (c : ascii) : bool := negb (code c =? 10)%N.

Definition same (a : ascii) (c : ascii) : bool := (code c =? code a)%N.

(** [str.lower] on one character. *)
Definition lower (c : ascii) : ascii :=
  if between 65 90 c || between 192 214 c || between 216 222 c
  then ascii_of_N (code c + 32)
  else c.

End Char.

(** ** String methods *)

Fixpoint lstrip (s : string) : string :=
  match s with
  | String c s' => if Char.isspace c then lstrip s' else s
  | EmptyString => EmptyString
  end.

Fixpoint rstrip (s : string) : string :=
  match s with
  | EmptyString => EmptyString
  | String c s' =>
      match rstrip s' with
      | EmptyString => if Char.isspace c then EmptyString else String c EmptyString
      | r => String c r
      end
  end.

(** [s.strip()] *)
Definition strip (s : string) : string := lstrip (rstrip s).

(** [s.startswith(p)] *)
Definition startswith (p s : string) : bool := String.prefix p s.

(** [len(line) - len(line.lstrip())] *)
Definition indent_of (line : string) : nat :=
  String.length line - String.length (lstrip line).

(** [s.split(",")]: always at least one piece. *)
Fixpoint split_comma (s : string) : list string :=
  match s with
  | EmptyString => [EmptyString]
  | String c s' =>
      if Char.same "," c then EmptyString :: split_comma s'
      else match split_comma s' with
           | h :: t => String c h :: t
           | [] => [String c EmptyString]
           end
  end.

Fixpoint map_chars (f : ascii -> ascii) (s : string) : string :=
  match s with
  | EmptyString => EmptyString
  | String c s' => String (f c) (map_chars f s')
  end.

(** [s.lower()] *)
Definition lower (s : string) : string := map_chars Char.lower s.

(** [s.replace(" ", "_")] *)
Definition replace_space (s : string) : string :=
  map_chars (fun c => if Char.same " " c then "_"%char else c) s.

(** Truth value of a string: [not stripped] is [negb (truthy stripped)]. *)
Definition truthy (s : string) : bool :=
  match s with
  | EmptyString => false
  | _ => true
  end.

Definition str_eqb (a b : string) : bool := bool_decide (a = b).

(** ** The fragment of [re] the patterns use

    A pattern is a sequence of nodes; quantifiers apply to a character
    class and are greedy; matching backtracks in the order of [re]. *)

Module Re.

Inductive node : Type :=
| Lit (s : string)
| Star (cls : ascii -> bool)
| Plus (cls : ascii -> bool)
| Opt (cls : ascii -> bool)
| Alt (alts : list string)
| Open
| Close
| Eos.

Definition pattern := list node.

(** The state of a match: the text left, the offset reached, and the
    offsets of the group parentheses passed so far (latest first). *)
Definition cont := string -> nat -> list nat -> option (list nat).

Fixpoint strip_prefix (p s : string) : option string :=
  match p, s with
  | EmptyString, _ => Some s
  | String a p', String b s' => if Ascii.eqb a b then strip_prefix p' s' else None
  | String _ _, EmptyString => None
  end.

(** A greedy repetition of [cls], at least [lo] times, [n] taken so far:
    take one more character when possible, fall back to the continuation. *)
Fixpoint greedy (cls : ascii -> bool) (lo : nat) (k : cont) (n : nat)
    (s : string) (pos : nat) (marks : list nat) : option (list nat) :=
  let stop := if (lo <=? n)%nat then k s pos marks else None in
  match s with
  | String c s' =>
      if cls c then
        match greedy cls lo k (S n) s' (S pos) marks with
        | Some r => Some r
        | None => stop
        end
      else stop
  | EmptyString => stop
  end.

Fixpoint first_alt (alts : list string) (k : cont)
    (s : string) (pos : nat) (marks : list nat) : option (list nat) :=
  match alts with
  | [] => None
  | a :: alts' =>
      match strip_prefix a s with
      | Some s' =>
          match k s' (pos + String.length a)%nat marks with
          | Some r => Some r
          | None => first_alt alts' k s pos marks
          end
      | None => first_alt alts' k s pos marks
      end
  end.

(** [$]: the end of the text, or just before a final line feed. *)
Definition at_end (s : string) : bool :=
  match s with
  | EmptyString => true
  | String c EmptyString => Char.same "010" c
  | _ => false
  end.

Fixpoint run (p : pattern) : cont :=
  match p with
  | [] => fun _ _ marks => Some marks
  | Lit l :: p' => fun s pos marks =>
      match strip_prefix l s with
      | Some s' => run p' s' (pos + String.length l)%nat marks
      | None => None
      end
  | Star cls :: p' => greedy cls 0 (run p') 0
  | Plus cls :: p' => greedy cls 1 (run p') 0
  | Opt cls :: p' => fun s pos marks =>
      match s with
      | String c s' =>
          if cls c then
            match run p' s' (S pos) marks with
            | Some r => Some r
            | None => run p' s pos marks
            end
          else run p' s pos marks
      | EmptyString => run p' s pos marks
      end
  | Alt alts :: p' => first_alt alts (run p')
  | Open :: p' => fun s pos marks => run p' s pos (pos :: marks)
  | Close :: p' => fun s pos marks => run p' s pos (pos :: marks)
  | Eos :: p' => fun s pos marks => if at_end s then run p' s pos marks else None
  end.

(** The groups, from the offsets of their parentheses (earliest first). *)
Fixpoint groups (s : string) (marks : list nat) : list string :=
  match marks with
  | a :: b :: marks' => String.substring a (b - a) s :: groups s marks'
  | _ => []
  end.

(** [re.match(p, s)]: [Some] of the groups 1, 2, ... or [None]. *)
Definition rmatch (p : pattern) (s : string) : option (list string) :=
  match run p s 0 [] with
  | Some marks => Some (groups s (rev marks))
  | None => None
  end.

End Re.

Import Re.

(** The patterns of the source, in the order they appear. *)

(** [(\w+):\s*([0-9.]+)\s*$] *)
Definition re_instrument : pattern :=
  [Open; Plus Char.isword; Close; Lit ":"; Star Char.isspace;
   Open; Plus Char.isnum; Close; Star Char.isspace; Eos].

(** [(direct|early):\s*([0-9.]+)\s*$] *)
Definition re_ratio : pattern :=
  [Open; Alt ["direct"; "early"]; Close; Lit ":"; Star Char.isspace;
   Open; Plus Char.isnum; Close; Star Char.isspace; Eos].

(** [([0-9.]+)\s+(\S+)] *)
Definition re_component : pattern :=
  [Open; Plus Char.isnum; Close; Plus Char.isspace;
   Open; Plus Char.nonspace; Close].

(** [hall\s+gain:\s*(-?[0-9.]+)\s*$] *)
Definition re_hall_gain : pattern :=
  [Lit "hall"; Plus Char.isspace; Lit "gain:"; Star Char.isspace;
   Open; Opt (Char.same "-"); Plus Char.isnum; Close; Star Char.isspace; Eos].

(** [signal\s+(\S+):\s*$] *)
Definition re_signal_nested : pattern :=
  [Lit "signal"; Plus Char.isspace; Open; Plus Char.nonspace; Close;
   Lit ":"; Star Char.isspace; Eos].

(** [signal\s+(\S+):\s*(.+)$] *)
Definition re_signal_inline : pattern :=
  [Lit "signal"; Plus Char.isspace; Open; Plus Char.nonspace; Close;
   Lit ":"; Star Char.isspace; Open; Plus Char.dot; Close; Eos].

(** ** [float(text)] on the text of a numeric group

    The numeric groups hold characters of [[0-9.]], after an optional minus
    sign for the hall gain. On such a text [float] raises [ValueError] unless
    there is at least one digit and at most one dot; otherwise it returns
    the binary64 number nearest to the decimal (ties to even). *)

Module PyFloat.

Local Open Scope Z_scope.

(** Digits read so far: their value as one integer, how many there are,
    how many dots were seen, how many digits follow the first dot. *)
Record scan : Type := {
  mant : Z;
  ndigits : nat;
  ndots : nat;
  nfrac : nat
}.

Fixpoint scan_decimal (s : string) (a : scan) : option scan :=
  match s with
  | EmptyString => Some a
  | String c s' =>
      if Char.isdigit c then
        scan_decimal s'
          {| mant := 10 * mant a + (Z.of_N (Char.code c) - 48);
             ndigits := S (ndigits a);
             ndots := ndots a;
             nfrac := if (0 <? ndots a)%nat then S (nfrac a) else nfrac a |}
      else if Char.same "." c then
        scan_decimal s'
          {| mant := mant a; ndigits := ndigits a;
             ndots := S (ndots a); nfrac := nfrac a |}
      else None
  end.

(** The binary64 number nearest to [n / d], for [0 <= n] and [0 < d]: a
    quotient of at least 64 bits with a sticky bit below it, rounded to
    nearest even. *)
Definition round_ratio (neg : bool) (n d : Z) : spec_float :=
  if (n =? 0)%Z then S754_zero neg
  else
    let sh := Z.max 0 (64 + Z.log2 d - Z.log2 n) in
    let q := Z.shiftl n sh / d in
    let sticky := if (Z.shiftl n sh mod d =? 0)%Z then 0 else 1 in
    match 2 * q + sticky with
    | Zpos m => binary_round prec emax neg m (- sh - 1)
    | _ => S754_zero neg
    end.

Definition of_decimal (neg : bool) (a : scan) : float :=
  SF2Prim (round_ratio neg (mant a) (10 ^ Z.of_nat (nfrac a))).

Definition unsigned (neg : bool) (whole digits : string) : res float :=
  match scan_decimal digits {| mant := 0; ndigits := 0; ndots := 0; nfrac := 0 |} with
  | Some a =>
      if (0 <? ndigits a)%nat && (ndots a <=? 1)%nat
      then Ret (of_decimal neg a)
      else Raise (ValueError whole)
  | None => Raise (ValueError whole)
  end.

End PyFloat.

(** [float(s)] *)
Definition py_float (s : string) : res float :=
  match s with
  | String c s' =>
      if Char.same "-" c then PyFloat.unsigned true s s' else PyFloat.unsigned false s s
  | EmptyString => Raise (ValueError s)
  end.

(** [match] as a truth value, and [match.group(n)]. *)
Definition is_match (m : option (list string)) : bool :=
  match m with
  | Some _ => true
  | None => false
  end.

Definition group (m : option (list string)) (n : nat) : string :=
  match m with
  | Some gs => nth (n - 1) gs EmptyString
  | None => EmptyString
  end.

(** ** Data model *)

Record Signal : Type := {
  name : string;
  weights : gmap nat float;
  is_hall : bool
}.

Record Spec : Type := {
  components : list string;
  component_index : gmap string nat;
  signals : list Signal;
  target : gmap nat float;
  instruments : list string;
  hall_gain_db : float
}.

(** What [parse_spec_file] returns: [(spec, None)] or [(None, message)]. *)
Inductive parse_result : Type :=
| Parsed (spec : Spec)
| ParseError (message : string).

(** An insertion-ordered dictionary with string keys: assigning to a key
    that is present keeps its place. *)
Module ODict.

Definition t (V : Type) : Type := list (string * V).

Fixpoint set {V} (k : string) (v : V) (d : t V) : t V :=
  match d with
  | [] => [(k, v)]
  | (k', v') :: d' =>
      if str_eqb k k' then (k, v) :: d' else (k', v') :: set k v d'
  end.

Fixpoint get {V} (k : string) (d : t V) : option V :=
  match d with
  | [] => None
  | (k', v') :: d' => if str_eqb k k' then Some v' else get k d'
  end.

Definition keys {V} (d : t V) : list string := map fst d.

End ODict.

(** [d[k]] for reading. *)
Definition getitem {V} (k : string) (o : option V) : res V :=
  match o with
  | Some v => Ret v
  | None => Raise (KeyError k)
  end.

(** Truth value of [current_instrument], which is [None] or a string. *)
Definition truthy_opt (o : option string) : bool :=
  match o with
  | Some s => truthy s
  | None => false
  end.

Definition blank_or_comment (stripped : string) : bool :=
  negb (truthy stripped) || startswith "#" stripped.

(** ** [parse_nested_target]

    The loop runs over [lines[i:]], here [rest]; the index returned by the
    source is the position of the lines returned here. *)
Fixpoint parse_nested_target_loop (rest : list string)
    (instruments : list string) (target_weights : ODict.t (gmap string float))
    (current_instrument : option string) (base_indent : option nat)
    : res (list string * ODict.t (gmap string float) * list string) :=
  match rest with
  | [] => Ret (instruments, target_weights, [])
  | line :: rest' =>
      let stripped := strip line in
      if blank_or_comment stripped then
        parse_nested_target_loop rest' instruments target_weights
          current_instrument base_indent
      else
        let indent := indent_of line in
        let base := match base_indent with Some b => b | None => indent end in
        if (indent <? base)%nat && truthy stripped then
          Ret (instruments, target_weights, rest)
        else
          let m := rmatch re_instrument stripped in
          if is_match m && (indent =? base)%nat then
            let current := group m 1 in
            weight ← py_float (group m 2);
            parse_nested_target_loop rest' (instruments ++ [current])
              (ODict.set current {["weight" := weight]} target_weights)
              (Some current) (Some base)
          else
            let m := rmatch re_ratio stripped in
            if is_match m && truthy_opt current_instrument && (base <? indent)%nat then
              let type_name := group m 1 in
              type_weight ← py_float (group m 2);
              let current := default EmptyString current_instrument in
              entry ← getitem current (ODict.get current target_weights);
              parse_nested_target_loop rest' instruments
                (ODict.set current (<[type_name := type_weight]> entry) target_weights)
                current_instrument (Some base)
            else
              parse_nested_target_loop rest' instruments target_weights
                current_instrument (Some base)
  end.

Definition parse_nested_target (rest : list string)
    : res (list string * ODict.t (gmap string float) * list string) :=
  parse_nested_target_loop rest [] [] None None.

(** ** [parse_signal_components] *)
Fixpoint parse_signal_components_loop (parts : list string) (signal_name : string)
    (component_index : gmap string nat) (result : gmap nat float)
    : res (gmap nat float) :=
  match parts with
  | [] => Ret result
  | part :: parts' =>
      let part := strip part in
      let m := rmatch re_component part in
      if is_match m then
        weight ← py_float (group m 1);
        let name := group m 2 in
        let name := if str_eqb name "direct" then signal_name +:+ "_direct" else name in
        match component_index !! name with
        | Some idx =>
            parse_signal_components_loop parts' signal_name component_index
              (<[idx := weight]> result)
        | None =>
            parse_signal_components_loop parts' signal_name component_index result
        end
      else parse_signal_components_loop parts' signal_name component_index result
  end.

Definition parse_signal_components (component_str signal_name : string)
    (component_index : gmap string nat) : res (gmap nat float) :=
  parse_signal_components_loop (split_comma component_str) signal_name
    component_index ∅.

(** ** [parse_nested_signal] *)
Fixpoint parse_nested_signal_loop (rest : list string)
    (component_index : gmap string nat) (weights : gmap nat float)
    (current_instrument : option string) (current_instrument_weight : float)
    (base_indent : option nat) : res (gmap nat float * list string) :=
  match rest with
  | [] => Ret (weights, [])
  | line :: rest' =>
      let stripped := strip line in
      if blank_or_comment stripped then
        parse_nested_signal_loop rest' component_index weights
          current_instrument current_instrument_weight base_indent
      else
        let indent := indent_of line in
        let base := match base_indent with Some b => b | None => indent end in
        if (indent <? base)%nat && truthy stripped then Ret (weights, rest)
        else
          let m := rmatch re_instrument stripped in
          if is_match m && (indent =? base)%nat then
            let current := group m 1 in
            weight ← py_float (group m 2);
            parse_nested_signal_loop rest' component_index weights
              (Some current) weight (Some base)
          else
            let m := rmatch re_ratio stripped in
            if is_match m && truthy_opt current_instrument && (base <? indent)%nat then
              let comp_type := group m 1 in
              comp_weight ← py_float (group m 2);
              let comp_name :=
                default EmptyString current_instrument +:+ "_" +:+ comp_type in
              match component_index !! comp_name with
              | Some idx =>
                  parse_nested_signal_loop rest' component_index
                    (<[idx := (current_instrument_weight * comp_weight)%float]> weights)
                    current_instrument current_instrument_weight (Some base)
              | None =>
                  parse_nested_signal_loop rest' component_index weights
                    current_instrument current_instrument_weight (Some base)
              end
            else
              parse_nested_signal_loop rest' component_index weights
                current_instrument current_instrument_weight (Some base)
  end.

Definition parse_nested_signal (rest : list string)
    (component_index : gmap string nat) : res (gmap nat float * list string) :=
  parse_nested_signal_loop rest component_index ∅ None 0%float None.

(** ** [parse_spec_file]

    The model starts after the file has been read: [lines] is what
    [f.readlines()] returns. Opening and reading the file, and the
    [OSError] or [UnicodeDecodeError] they can raise, are outside the model.
    Both passes walk the lines with an index that every iteration advances
    by at least one; [fuel] bounds the iterations and [length lines] of it
    is always enough. *)

(** The first [while] loop: target blocks and hall gain lines. *)
Fixpoint first_pass (fuel : nat) (rest : list string)
    (instruments : list string) (target_weights : ODict.t (gmap string float))
    (hall_gain_db : float)
    : res (list string * ODict.t (gmap string float) * float) :=
  match fuel, rest with
  | S fuel', line :: rest' =>
      let stripped := strip line in
      if str_eqb stripped "target:" then
        '(instruments', target_weights', rest'') ← parse_nested_target rest';
        first_pass fuel' rest'' instruments' target_weights' hall_gain_db
      else
        let m := rmatch re_hall_gain stripped in
        if is_match m then
          gain ← py_float (group m 1);
          first_pass fuel' rest' instruments target_weights gain
        else first_pass fuel' rest' instruments target_weights hall_gain_db
  | _, _ => Ret (instruments, target_weights, hall_gain_db)
  end.

(** [components]: two names per instrument, in declaration order. *)
Definition build_components (instruments : list string) : list string :=
  fold_left
    (fun components instr =>
       ((components ++ [instr +:+ "_direct"]) ++ [instr +:+ "_early"])%list)
    instruments [].

Fixpoint enumerate_from {A} (start : nat) (l : list A) : list (nat * A) :=
  match l with
  | [] => []
  | x :: l' => (start, x) :: enumerate_from (S start) l'
  end.

(** [{name: idx for idx, name in enumerate(components)}] *)
Definition build_component_index (components : list string) : gmap string nat :=
  fold_left (fun index '(idx, name) => <[name := idx]> index)
    (enumerate_from 0 components) ∅.

(** [weights.get(key, 0)] *)
Definition get_or_zero (weights : gmap string float) (key : string) : float :=
  default 0%float (weights !! key).

(** The loop over [target_weights.items()]. *)
Fixpoint build_target (items : ODict.t (gmap string float))
    (component_index : gmap string nat) (target : gmap nat float)
    : res (gmap nat float) :=
  match items with
  | [] => Ret target
  | (instr, weights) :: items' =>
      let instr_weight := get_or_zero weights "weight" in
      let direct_ratio := get_or_zero weights "direct" in
      let early_ratio := get_or_zero weights "early" in
      d ← getitem (instr +:+ "_direct") (component_index !! (instr +:+ "_direct"));
      let target := <[d := (instr_weight * direct_ratio)%float]> target in
      e ← getitem (instr +:+ "_early") (component_index !! (instr +:+ "_early"));
      let target := <[e := (instr_weight * early_ratio)%float]> target in
      build_target items' component_index target
  end.

(** The second [while] loop: signal declarations. *)
Fixpoint second_pass (fuel : nat) (rest : list string)
    (component_index : gmap string nat) (signals : list Signal)
    : res (list Signal) :=
  match fuel, rest with
  | S fuel', line :: rest' =>
      let stripped := strip line in
      if blank_or_comment stripped then
        second_pass fuel' rest' component_index signals
      else
        let m := rmatch re_signal_nested stripped in
        if is_match m then
          let name := group m 1 in
          '(weights, rest'') ← parse_nested_signal rest' component_index;
          second_pass fuel' rest'' component_index
            (signals ++ [{| name := name; weights := weights; is_hall := false |}])
        else
          let m := rmatch re_signal_inline stripped in
          if is_match m then
            let name := group m 1 in
            weights ← parse_signal_components (group m 2) name component_index;
            second_pass fuel' rest' component_index
              (signals ++ [{| name := name; weights := weights; is_hall := false |}])
          else second_pass fuel' rest' component_index signals
  | _, _ => Ret signals
  end.

Definition no_target_message : string := "No target section found in spec file".

Definition parse_spec_file (lines : list string) : res parse_result :=
  '(instruments, target_weights, hall_gain_db) ←
    first_pass (length lines) lines [] [] 0%float;
  match instruments with
  | [] => Ret (ParseError no_target_message)
  | _ :: _ =>
      let components := build_components instruments in
      let component_index := build_component_index components in
      target ← build_target target_weights component_index ∅;
      signals ← second_pass (length lines) lines component_index [];
      Ret (Parsed {| components := components;
                     component_index := component_index;
                     signals := signals;
                     target := target;
                     instruments := instruments;
                     hall_gain_db := hall_gain_db |})
  end.

(** ** Decibels and the hall augmenter *)

Section Hall.

(** [x ** y] on floats is the power function of the C library; Python
    raises [OverflowError] when its result is out of range. *)
Variable py_pow : float -> float -> res float.

Definition db_to_linear (db : float) : res float := py_pow 10%float (db / 20)%float.

(** [track_name.lower().replace(" ", "_")] *)
Definition normalize (track_name : string) : string := replace_space (lower track_name).

Definition append_signal (spec : Spec) (signal : Signal) : Spec :=
  {| components := components spec;
     component_index := component_index spec;
     signals := signals spec ++ [signal];
     target := target spec;
     instruments := instruments spec;
     hall_gain_db := hall_gain_db spec |}.

(** [order] is an order in which [set(spec["instruments"])] can be iterated:
    every declared name once. *)
Definition iterates (order instruments : list string) : Prop :=
  NoDup order /\ forall instr, instr ∈ order <-> instr ∈ instruments.

(** The inner loop [for instr in instruments], which [break]s at the first
    instrument whose hall name is the normalized track name. *)
Fixpoint hall_instrument_loop (order : list string) (spec : Spec)
    (hall_gain_linear : float) (track_name track_name_normalized : string) : Spec :=
  match order with
  | [] => spec
  | instr :: order' =>
      if str_eqb track_name_normalized (instr +:+ "_hall") then
        let early_component := instr +:+ "_early" in
        match component_index spec !! early_component with
        | Some idx =>
            append_signal spec
              {| name := track_name;
                 weights := {[idx := hall_gain_linear]};
                 is_hall := true |}
        | None => spec
        end
      else
        hall_instrument_loop order' spec hall_gain_linear
          track_name track_name_normalized
  end.

(** The outer loop [for track_name in track_names]. *)
Fixpoint hall_track_loop (track_names order : list string) (spec : Spec)
    (hall_gain_linear : float) : Spec :=
  match track_names with
  | [] => spec
  | track_name :: track_names' =>
      hall_track_loop track_names' order
        (hall_instrument_loop order spec hall_gain_linear
           track_name (normalize track_name))
        hall_gain_linear
  end.

(** [add_hall_signals(spec, track_names)]; the result is [spec] after the
    call. *)
Definition add_hall_signals (order : list string) (spec : Spec)
    (track_names : list string) : res Spec :=
  hall_gain_linear ← db_to_linear (hall_gain_db spec);
  Ret (hall_track_loop track_names order spec hall_gain_linear).

End Hall.

(** ** The reporter: the end of [main], from [achieved_mix] on *)

Module Report.

(** One value of [achieved_mix]. *)
Record entry : Type := {
  achieved : float;
  target : float;
  diff : float
}.

(** The fields of [result] that depend on the solver's outcome. *)
Record result : Type := {
  success : bool;
  error : float;
  error_message : option string;
  achieved_mix : ODict.t entry
}.

End Report.

Definition threshold : float := 0.01%float.

Definition LF : string := String "010" EmptyString.

(** [sep.join(items)] *)
Fixpoint join (sep : string) (items : list string) : string :=
  match items with
  | [] => EmptyString
  | [x] => x
  | x :: items' => x +:+ sep +:+ join sep items'
  end.

(** [f"{v:.1f}"]: the decimal with one digit after the point nearest to the
    exact value of [v] (ties to even), with the sign of [v]. *)
Module Fmt.

Local Open Scope Z_scope.

Definition decimal (n : Z) : string :=
  NilZero.string_of_uint (N.to_uint (Z.to_N n)).

(** The integer nearest to [m * 2 ^ e], ties to even, for [0 <= m]. *)
Definition round_half_even (m e : Z) : Z :=
  if 0 <=? e then m * 2 ^ e
  else
    let d := 2 ^ (- e) in
    let q := m / d in
    let r := m mod d in
    if (d <? 2 * r) || ((d =? 2 * r) && Z.odd q) then q + 1 else q.

Definition tenths (neg : bool) (n : Z) : string :=
  (if neg then "-" else "") +:+ decimal (n / 10) +:+ "." +:+ decimal (n mod 10).

End Fmt.

Definition fmt1 (v : float) : string :=
  match Prim2SF v with
  | S754_nan => "nan"
  | S754_infinity neg => if neg then "-inf" else "inf"
  | S754_zero neg => Fmt.tenths neg 0
  | S754_finite neg m e => Fmt.tenths neg (Fmt.round_half_even (10 * Zpos m) e)
  end.

(** [achieved] is [A @ solution] and [target] the target vector, both as
    long as [components]. *)
Fixpoint build_achieved_mix (rows : list (nat * string)) (achieved target : list float)
    (achieved_mix : ODict.t Report.entry) : ODict.t Report.entry :=
  match rows with
  | [] => achieved_mix
  | (i, name) :: rows' =>
      let a := nth i achieved 0%float in
      let t := nth i target 0%float in
      build_achieved_mix rows' achieved target
        (ODict.set name
           {| Report.achieved := a; Report.target := t; Report.diff := (a - t)%float |}
           achieved_mix)
  end.

Definition over_delivery : string := " (too much baked into source signals)".
Definition under_delivery : string := " (not enough available)".

Definition problem_line (name : string) (data : Report.entry) (reason : string) : string :=
  name +:+ ": getting " +:+ fmt1 (Report.achieved data * 100)%float
    +:+ "% but target is " +:+ fmt1 (Report.target data * 100)%float
    +:+ "%" +:+ reason.

(** The loop over [achieved_mix.items()] that collects [problems]. *)
Fixpoint collect_problems (items : ODict.t Report.entry) (problems : list string)
    : list string :=
  match items with
  | [] => problems
  | (name, data) :: items' =>
      let diff := Report.diff data in
      if (threshold <? abs diff)%float then
        if (0 <? diff)%float then
          collect_problems items' (problems ++ [problem_line name data over_delivery])
        else
          collect_problems items' (problems ++ [problem_line name data under_delivery])
      else collect_problems items' problems
  end.

Definition make_error_message (error : float) (achieved_mix : ODict.t Report.entry)
    : option string :=
  if (threshold <? error)%float then
    match collect_problems achieved_mix [] with
    | [] => None
    | problems => Some ("Target mix not achievable:" +:+ LF +:+ join LF problems)
    end
  else None.

(** [solver_success] and [error] are what [solve_mix] returned. *)
Definition report (components : list string) (achieved target : list float)
    (error : float) (solver_success : bool) : Report.result :=
  let achieved_mix :=
    build_achieved_mix (enumerate_from 0 components) achieved target [] in
  {| Report.success := solver_success && (error <? threshold)%float;
     Report.error := error;
     Report.error_message := make_error_message error achieved_mix;
     Report.achieved_mix := achieved_mix |}.

(** ** [build_matrices] and the values [main] hands to the reporter *)

(** [A[i][j]] is the weight signal [j] stores under index [i], else zero;
    the target vector and the hall indicator likewise. *)
Definition build_matrices (spec : Spec)
    : list (list float) * list float * list float * list string :=
  let rows := seq 0 (length (components spec)) in
  let A := map (fun i => map (fun signal => default 0%float (weights signal !! i))
                           (signals spec)) rows in
  let target := map (fun i => default 0%float (target spec !! i)) rows in
  let is_hall := map (fun signal => if is_hall signal then 1%float else 0%float)
                     (signals spec) in
  (A, target, is_hall, map name (signals spec)).

(** A dot product. numpy leaves the order of the additions to its linear
    algebra back end; they are taken from left to right here. The theorems
    on the reporter hold for every [achieved] and [error]; only the example
    [quiet_text] evaluates a product, and its matrix is zero. *)
Definition dot (u v : list float) : float :=
  fold_left (fun acc '(a, b) => (acc + a * b)%float) (zip u v) 0%float.

(** [A @ x] *)
Definition matvec (A : list (list float)) (x : list float) : list float :=
  map (fun row => dot row x) A.

(** [np.linalg.norm(v)] *)
Definition norm (v : list float) : float := sqrt (dot v v).

(** [main] from the return of [minimize] on: [x] and [solver_success]
    are [result.x] and [result.success]. *)
Definition main_report (spec : Spec) (x : list float) (solver_success : bool)
    : Report.result :=
  let '(A, target, _, _) := build_matrices spec in
  let residual := zip_with (fun a t => (a - t)%float) (matvec A x) target in
  report (components spec) (matvec A x) target (norm residual) solver_success.

(** ** More of [main] *)

(** [[line.strip() for line in f if line.strip()]], the track names [main]
    reads from the track list file. *)
Fixpoint read_track_names (lines : list string) : list string :=
  match lines with
  | [] => []
  | line :: lines' =>
      if truthy (strip line) then strip line :: read_track_names lines'
      else read_track_names lines'
  end.

(** ** [build_matrices] as the source writes it

    The arrays start as zeros and are filled by indexed assignments, which
    numpy refuses with an [IndexError] when the index is out of bounds;
    [None] stands for that exception. The entries of a weight mapping are
    assigned in the order of [map_to_list]; they have distinct indices, so
    the order does not change the arrays. *)

(** [A[idx, j] = weight] *)
Definition set_cell (A : list (list float)) (idx j : nat) (weight : float)
    : option (list (list float)) :=
  match A !! idx with
  | Some row =>
      if (j <? length row)%nat then Some (<[idx := <[j := weight]> row]> A) else None
  | None => None
  end.

(** [for idx, weight in signal["weights"].items(): A[idx, j] = weight] *)
Fixpoint fill_column (A : list (list float)) (j : nat) (items : list (nat * float))
    : option (list (list float)) :=
  match items with
  | [] => Some A
  | (idx, weight) :: items' =>
      A' ← set_cell A idx j weight; fill_column A' j items'
  end.

(** [for j, signal in enumerate(spec["signals"])] *)
Fixpoint fill_signals (A : list (list float)) (rows : list (nat * Signal))
    : option (list (list float)) :=
  match rows with
  | [] => Some A
  | (j, signal) :: rows' =>
      A' ← fill_column A j (map_to_list (weights signal)); fill_signals A' rows'
  end.

(** [for idx, weight in spec["target"].items(): target[idx] = weight] *)
Fixpoint fill_target (target : list float) (items : list (nat * float))
    : option (list float) :=
  match items with
  | [] => Some target
  | (idx, weight) :: items' =>
      if (idx <? length target)%nat then fill_target (<[idx := weight]> target) items'
      else None
  end.

Definition build_matrices_loop (spec : Spec)
    : option (list (list float) * list float * list float * list string) :=
  let num_components := length (components spec) in
  let num_signals := length (signals spec) in
  A ← fill_signals (replicate num_components (replicate num_signals 0%float))
        (enumerate_from 0 (signals spec));
  target ← fill_target (replicate num_components 0%float) (map_to_list (target spec));
  Some (A, target,
        map (fun signal => if is_hall signal then 1%float else 0%float) (signals spec),
        map name (signals spec)).

(** ** [linear_to_db] and the levels of [main] *)

Module Level.

(** One value of [levels]. *)
Record entry : Type := {
  linear : float;
  db : float;
  is_hall : bool
}.

End Level.

Section Levels.

(** [np.log10] *)
Variable np_log10 : float -> float.

Definition linear_to_db (lin : float) : float :=
  if (lin <=? 0)%float then (-150)%float else (20 * np_log10 lin)%float.

(** The value [main] stores for signal [j]; [bool(v)] of a float is
    [v != 0]. *)
Definition level_entry (solution is_hall : list float) (j : nat) : Level.entry :=
  {| Level.linear := nth j solution 0%float;
     Level.db := linear_to_db (nth j solution 0%float);
     Level.is_hall := negb (nth j is_hall 0 =? 0)%float |}.

(** The loop [for j, name in enumerate(signal_names)] that fills [levels]. *)
Fixpoint build_levels (rows : list (nat * string)) (solution is_hall : list float)
    (levels : ODict.t Level.entry) : ODict.t Level.entry :=
  match rows with
  | [] => levels
  | (j, name) :: rows' =>
      build_levels rows' solution is_hall
        (ODict.set name (level_entry solution is_hall j) levels)
  end.

End Levels.

(** ** The two compositions of the conversions *)

Section RoundTrips.

Variable py_pow : float -> float -> res float.
Variable np_log10 : float -> float.



End RoundTrips.

(** ** Specification-level definitions

    These follow the words of the specification; the theorems below compare
    them with the functions above. *)

(** A component is reported when its difference exceeds the threshold in
    absolute value; the explanation depends on the sign of the difference. *)
Definition exceeds (data : Report.entry) : bool :=
  (threshold <? abs (Report.diff data))%float.

Definition annotation (data : Report.entry) : string :=
  if (0 <? Report.diff data)%float then over_delivery else under_delivery.

Definition flagged (mix : ODict.t Report.entry) : ODict.t Report.entry :=
  List.filter (fun item => exceeds item.2) mix.

Definition diagnostic (items : ODict.t Report.entry) : string :=
  "Target mix not achievable:" +:+ LF
    +:+ join LF (map (fun item => problem_line item.1 item.2 (annotation item.2)) items).

(** The hall signal a supplied name stands for: the declared instrument whose
    hall name is the normalized supplied name, if there is one. *)
Definition hall_instrument (spec : Spec) (track_name : string) : option string :=
  List.find (fun instr => str_eqb (normalize track_name) (instr +:+ "_hall"))
    (instruments spec).

Definition hall_signal_for (spec : Spec) (linear_gain : float) (track_name : string)
    : option Signal :=
  instr ← hall_instrument spec track_name;
  idx ← component_index spec !! (instr +:+ "_early");
  Some {| name := track_name; weights := {[idx := linear_gain]}; is_hall := true |}.

Definition with_more_signals (spec : Spec) (more : list Signal) : Spec :=
  {| components := components spec;
     component_index := component_index spec;
     signals := signals spec ++ more;
     target := target spec;
     instruments := instruments spec;
     hall_gain_db := hall_gain_db spec |}.

(** Example texts are written one line per string. *)
Definition text (lines : list string) : list string :=
  map (fun line => line +:+ LF) lines.

(** A text whose only signal reaches no component, with two targets of
    0.008: the residual norm is 0.0113 and no single difference exceeds 0.01. *)
Definition quiet_text : list string :=
  text ["target:"; "  a: 0.008"; "    direct: 1.0"; "  b: 0.008"; "    direct: 1.0";
        "signal s: 1.0 nowhere"].

(** A specification with two instruments, a hall gain, an inline signal
    with a misspelled component and an inline signal using the [direct]
    alias. *)
Definition demo_text : list string :=
  text ["target:"; "  voc: 0.65"; "    direct: 0.9"; "    early: 0.1";
        "  gtr: 0.35"; "    direct: 1.0";
        "hall gain: -6";
        "signal voc: 1.0 voc_direct, 0.2 voc_erly";
        "signal gtr: 1.0 direct"].

Definition demo_spec : Spec :=
  {| components := ["voc_direct"; "voc_early"; "gtr_direct"; "gtr_early"];
     component_index :=
       <["voc_direct" := 0]> (<["voc_early" := 1]>
         (<["gtr_direct" := 2]> (<["gtr_early" := 3]> ∅)));
     signals :=
       [ {| name := "voc"; weights := {[0 := 1%float]}; is_hall := false |};
         {| name := "gtr"; weights := {[2 := 1%float]}; is_hall := false |} ];
     target :=
       <[0 := (0.65 * 0.9)%float]> (<[1 := (0.65 * 0.1)%float]>
         (<[2 := (0.35 * 1)%float]> (<[3 := (0.35 * 0)%float]> ∅)));
     instruments := ["voc"; "gtr"];
     hall_gain_db := (-6)%float |}.

(** The power function at the two exponents the examples use, with the
    values Python computes there. *)
Definition pow_example (x y : float) : res float :=
  if (y =? 0)%float then Ret 1%float
  else if (y =? -6 / 20)%float then Ret 0x1.009b9cf334252p-1%float
  else Raise OverflowError.

(** Python's [10.0 ** y] where the power leaves the binary64 range, whatever
    the C library: from [y = 309] on, 10 ** y exceeds the largest binary64
    number and Python raises [OverflowError]; up to [y = -400], 10 ** y is
    below half the smallest positive binary64 number, the C library returns
    0.0 and Python returns it without an error. Between the two the examples
    above are kept. *)
Definition pow_extremes (x y : float) : res float :=
  if (309 <=? y)%float then Raise OverflowError
  else if (y <=? -400)%float then Ret 0%float
  else pow_example x y.

(** A specification whose hall gain is 7000 dB. *)
Definition loud_text : list string :=
  text ["target:"; "  gtr: 1.0"; "    early: 1.0"; "hall gain: 7000";
        "signal gtr: 1.0 gtr_early"].

(** Where the block that starts with [rest] ends: blank lines and comments
    belong to it, the first other line fixes its base indent, and it ends
    before the first other line indented less than that. *)
Fixpoint block_end (rest : list string) (base_indent : option nat) : list string :=
  match rest with
  | [] => []
  | line :: rest' =>
      if blank_or_comment (strip line) then block_end rest' base_indent
      else
        let base := default (indent_of line) base_indent in
        if (indent_of line <? base)%nat then rest
        else block_end rest' (Some base)
  end.

(** The lines outside every target block, headers excluded; [fuel] as in
    the passes. *)
Fixpoint outside_target (fuel : nat) (rest : list string) : list string :=
  match fuel, rest with
  | S fuel', line :: rest' =>
      if str_eqb (strip line) "target:" then outside_target fuel' (block_end rest' None)
      else line :: outside_target fuel' rest'
  | _, _ => []
  end.

(** The number text of a hall gain line. *)
Definition hall_gain_text (line : string) : option string :=
  let m := rmatch re_hall_gain (strip line) in
  if is_match m then Some (group m 1) else None.

(** The hall gain the words of the specification give to the lines
    outside the target blocks: the value of the last hall gain line. *)
Definition last_hall_gain_text (lines : list string) : option string :=
  last (omap hall_gain_text (outside_target (length lines) lines)).

(** A number text [float] accepts. *)
Definition float_ok (s : string) : bool :=
  match py_float s with
  | Ret _ => true
  | Raise _ => false
  end.

(** If [p] matches the line, its numeric group [n] is accepted by [float]. *)
Definition group_ok (p : pattern) (n : nat) (stripped : string) : bool :=
  let m := rmatch p stripped in
  negb (is_match m) || float_ok (group m n).

(** Every number a pattern of the parser can capture on this line is
    accepted by [float]. *)
Definition line_numbers_ok (line : string) : bool :=
  let stripped := strip line in
  group_ok re_instrument 2 stripped
  && group_ok re_ratio 2 stripped
  && group_ok re_hall_gain 1 stripped
  && (let m := rmatch re_signal_inline stripped in
      negb (is_match m)
      || forallb (fun part => group_ok re_component 1 (strip part))
           (split_comma (group m 2))).

Definition numbers_ok (lines : list string) : bool := forallb line_numbers_ok lines.

Definition has_target_header (lines : list string) : bool :=
  existsb (fun line => str_eqb (strip line) "target:") lines.

(** The indent of the first line that is neither blank nor a comment. *)
Fixpoint first_content_indent (rest : list string) : option nat :=
  match rest with
  | [] => None
  | line :: rest' =>
      if blank_or_comment (strip line) then first_content_indent rest'
      else Some (indent_of line)
  end.

(** The text of a target block, in the words of the grammar. [body] is the
    text after a [target:] line. The lines of the block are those before
    its end: blank lines and comments, and the other lines as long as none
    is indented less than the first of them. *)
Fixpoint block_lines (body : list string) (base_indent : option nat) : list string :=
  match body with
  | [] => []
  | line :: body' =>
      if blank_or_comment (strip line) then line :: block_lines body' base_indent
      else
        let base := default (indent_of line) base_indent in
        if (indent_of line <? base)%nat then []
        else line :: block_lines body' (Some base)
  end.

(** A line declares an instrument when it is neither blank nor a comment,
    sits at the base indent of its block and has the shape [name: number];
    the instrument is the name. *)
Definition instrument_line (base : nat) (line : string) : option string :=
  if blank_or_comment (strip line) then None
  else
    let m := rmatch re_instrument (strip line) in
    if is_match m && (indent_of line =? base)%nat then Some (group m 1) else None.

(** The instruments a target block declares, in the order of its lines;
    the base indent is that of the first line that is neither blank nor a
    comment. *)
Definition block_instruments (body : list string) : list string :=
  omap (instrument_line (default 0 (first_content_indent body))) (block_lines body None).

(** The target blocks of a text, each given by the text after its
    [target:] line: a header is a [target:] line outside every target
    block, and the text after the block is searched for the next one.
    [fuel] as in the passes. *)
Fixpoint target_blocks (fuel : nat) (rest : list string) : list (list string) :=
  match fuel, rest with
  | S fuel', line :: rest' =>
      if str_eqb (strip line) "target:" then
        rest' :: target_blocks fuel' (block_end rest' None)
      else target_blocks fuel' rest'
  | _, _ => []
  end.

(** The instruments the text declares: those of its last target block,
    none when it has no target block. *)
Definition text_instruments (lines : list string) : list string :=
  match last (target_blocks (length lines) lines) with
  | Some body => block_instruments body
  | None => []
  end.

(** A target block whose only instrument line lacks its colon. *)
Definition colonless_text : list string :=
  text ["target:"; "  voc 1.0"; "    direct: 1.0"; "signal voc: 1.0 voc_direct"].

(** A hall gain line inside the target block, after one outside it. *)
Definition hall_inside_text : list string :=
  text ["hall gain: -3"; "target:"; "  voc: 1.0"; "    direct: 1.0"; "  hall gain: -6"].

(** ** Auxiliary definitions of the proofs *)

Fixpoint last_char (s : string) : option ascii :=
  match s with
  | EmptyString => None
  | String c EmptyString => Some c
  | String _ s' => last_char s'
  end.

Definition pair_of (instr : string) : list string :=
  [instr +:+ "_direct"; instr +:+ "_early"].

Definition index_step (index : gmap string nat) (item : nat * string) : gmap string nat :=
  let '(idx, name) := item in (<[name := idx]> index).

Definition is_hall_of (normalized instr : string) : bool :=
  str_eqb normalized (instr +:+ "_hall").

Definition known (component_index : gmap string nat) (weights : gmap nat float) : Prop :=
  forall idx weight, weights !! idx = Some weight ->
    exists name, component_index !! name = Some idx.

Definition base_of (line : string) (base_indent : option nat) : nat :=
  match base_indent with
  | Some b => b
  | None => indent_of line
  end.

Definition line_ok (line : string) : Prop := line_numbers_ok line = true.

Definition current_ok {V} (d : ODict.t V) (current : option string) : Prop :=
  forall c, current = Some c -> is_Some (ODict.get c d).

Definition keys_declared {V} (d : ODict.t V) (instruments : list string) : Prop :=
  forall k, k ∈ ODict.keys d -> k ∈ instruments.

Definition hall_gain_after (hall : float) (texts : list string) (hall' : float) : Prop :=
  match last texts with
  | Some g => py_float g = Ret hall'
  | None => hall' = hall
  end.

(** Whether [str.lower] changes some character of [s]. *)
Fixpoint has_upper (s : string) : bool :=
  match s with
  | EmptyString => false
  | String c s' => negb (Ascii.eqb (Char.lower c) c) || has_upper s'
  end.

(** The entry of [achieved_mix] for component [i] called [name]. *)
Definition mix_entry (achieved target : list float) (i : nat) (name : string)
    : string * Report.entry :=
  (name, {| Report.achieved := nth i achieved 0%float;
            Report.target := nth i target 0%float;
            Report.diff := (nth i achieved 0 - nth i target 0)%float |}).

(** The entry of a matrix, when the position exists. *)
Definition cell (A : list (list float)) (i j : nat) : option float :=
  match A !! i with
  | Some row => row !! j
  | None => None
  end.

Definition shape (A : list (list float)) (rows columns : nat) : Prop :=
  length A = rows /\ Forall (fun row => length row = columns) A.

(** Every index a signal or the target mentions is a row of the matrix. *)
Definition indices_in_range (spec : Spec) : Prop :=
  (forall signal idx, signal ∈ signals spec -> is_Some (weights signal !! idx) ->
     idx < length (components spec)) /\
  (forall idx, is_Some (target spec !! idx) -> idx < length (components spec)).

(** The component a token of an inline signal names: the bare [direct]
    stands for the signal's own direct component. *)
Definition token_component (signal_name part : string) : option string :=
  let m := rmatch re_component (strip part) in
  if is_match m then
    Some (if str_eqb (group m 2) "direct" then signal_name +:+ "_direct" else group m 2)
  else None.

Definition bad_number (e : exn) : Prop :=
  exists s, e = ValueError s /\ float_ok s = false.

Definition has_weight (entry : gmap string float) : Prop :=
  is_Some (entry !! "weight").

Definition target_weights_ok (instruments : list string)
    (target_weights : ODict.t (gmap string float)) : Prop :=
  (forall x, x ∈ instruments <-> x ∈ ODict.keys target_weights) /\
  NoDup (ODict.keys target_weights) /\
  Forall (fun item => has_weight item.2) target_weights.

Definition hall_like (spec : Spec) (track_names : list string) (gain : float)
    (signal : Signal) : Prop :=
  is_hall signal = true /\ name signal ∈ track_names /\
  exists idx, weights signal = {[idx := gain]} /\
    exists instr, component_index spec !! (instr +:+ "_early") = Some idx.

(** * Properties *)

(** ** The error monad *)

Lemma bind_Ret {A B} (m : res A) (f : A -> res B) (b : B) :
  m ≫= f = Ret b <-> exists a, m = Ret a /\ f a = Ret b.
Proof.
  destruct m as [a|e]; simpl.
  - split; [eauto | intros (a' & [= ->] & ?); done].
  - split; [done | intros (a' & ? & ?); done].
Qed.

Lemma returns_bind {A B} (m : res A) (f : A -> res B) :
  returns m -> (forall a, m = Ret a -> returns (f a)) -> returns (m ≫= f).
Proof. intros [a ->] Hf. simpl. by apply Hf. Qed.

(** ** The reporter *)

(** C3. For a run with the parsed and augmented [spec], the gains [x] and
    the convergence flag [solver_success] of the solver: with [A] and [T]
    the matrix and the target vector built from [spec], the [error] field
    of the result is the residual norm ||A.x - T||, and the [success] field
    is true exactly when the convergence flag is true and that norm is
    strictly below 0.01. *)
Theorem main_report_success_iff (spec : Spec) (x : list float) (solver_success : bool) :
  let A := (build_matrices spec).1.1.1 in
  let T := (build_matrices spec).1.1.2 in
  let residual_norm := norm (zip_with (fun a t => (a - t)%float) (matvec A x) T) in
  Report.error (main_report spec x solver_success) = residual_norm /\
  (Report.success (main_report spec x solver_success) = true
   <-> solver_success = true /\ (residual_norm <? threshold)%float = true).
Proof.
  unfold main_report.
  destruct (build_matrices spec) as [[[A T] hall] names]. simpl.
  split; [reflexivity|]. apply andb_true_iff.
Qed.

Lemma collect_problems_flagged (items : ODict.t Report.entry) (problems : list string) :
  collect_problems items problems =
  problems ++ map (fun item => problem_line item.1 item.2 (annotation item.2)) (flagged items).
Proof.
  revert problems. induction items as [|[name data] items IH]; intros problems.
  - simpl. by rewrite app_nil_r.
  - simpl. unfold exceeds; simpl.
    destruct (threshold <? abs (Report.diff data))%float; [|apply IH].
    simpl. unfold annotation in *.
    destruct (0 <? Report.diff data)%float; rewrite IH, <- app_assoc; done.
Qed.

(** C6, as stated, fails: here the residual norm is at least 0.01 and no
    diagnostic is produced. *)
Lemma error_message_counterexample :
  exists spec, parse_spec_file quiet_text = Ret (Parsed spec) /\
    (threshold <=? Report.error (main_report spec [0.3%float] false))%float = true /\
    Report.error_message (main_report spec [0.3%float] false) = None.
Proof.
  eexists. split; [vm_compute; reflexivity|].
  split; vm_compute; reflexivity.
Qed.

(** C6, amended. The diagnostic is produced exactly when the residual norm
    exceeds 0.01 and some entry of the achieved mix differs from its target
    by more than 0.01 in absolute value; it is then the heading followed by
    one line per such entry, in order, saying that too much is baked into the
    source signals when the difference is positive and that not enough is
    available otherwise. *)
Theorem error_message_spec (components : list string) (achieved target : list float)
    (error : float) (solver_success : bool) :
  let r := report components achieved target error solver_success in
  match Report.error_message r with
  | Some message =>
      (threshold <? error)%float = true /\
      flagged (Report.achieved_mix r) <> [] /\
      message = diagnostic (flagged (Report.achieved_mix r))
  | None =>
      (threshold <? error)%float = false \/ flagged (Report.achieved_mix r) = []
  end.
Proof.
  simpl. unfold make_error_message.
  destruct (threshold <? error)%float; [|by left].
  rewrite collect_problems_flagged. simpl.
  destruct (flagged _) as [|item items] eqn:E; simpl; [by right|].
  split; [done|]. split; [done|].
  unfold diagnostic. simpl. done.
Qed.

(** ** Strings *)

Lemma length_append (a b : string) :
  String.length (a +:+ b) = String.length a + String.length b.
Proof. induction a as [|c a IH]; simpl; [done | by rewrite IH]. Qed.

Lemma append_inj_l (s a b : string) : a +:+ s = b +:+ s -> a = b.
Proof.
  revert b. induction a as [|c a IH]; intros [|d b] H; simpl in *; try done.
  - apply (f_equal String.length) in H. simpl in H. rewrite !length_append in H. simpl in H. lia.
  - apply (f_equal String.length) in H. simpl in H. rewrite !length_append in H. simpl in H. lia.
  - injection H as -> H. f_equal. by apply IH.
Qed.

Lemma last_char_append (a s : string) :
  s <> EmptyString -> last_char (a +:+ s) = last_char s.
Proof.
  intros Hs. induction a as [|c a IH]; simpl; [done|].
  rewrite IH. destruct (a +:+ s) eqn:E; [|done].
  destruct a; simpl in E; [done | discriminate].
Qed.

Lemma direct_ne_early (a b : string) : a +:+ "_direct" <> b +:+ "_early".
Proof.
  intros H. apply (f_equal last_char) in H.
  rewrite !last_char_append in H by done. discriminate.
Qed.

Lemma str_eqb_true (a b : string) : str_eqb a b = true <-> a = b.
Proof. unfold str_eqb. apply bool_decide_eq_true. Qed.

Lemma str_eqb_false (a b : string) : str_eqb a b = false <-> a <> b.
Proof. unfold str_eqb. apply bool_decide_eq_false. Qed.

(** ** The component list and its index *)

Lemma build_components_flat_map (instruments : list string) :
  build_components instruments = flat_map pair_of instruments.
Proof.
  unfold build_components.
  enough (forall acc, fold_left
            (fun components instr =>
               (components ++ [instr +:+ "_direct"]) ++ [instr +:+ "_early"])
            instruments acc = acc ++ flat_map pair_of instruments) as H by apply H.
  induction instruments as [|instr l IH]; intros acc; simpl.
  - by rewrite app_nil_r.
  - rewrite IH, <- !app_assoc. done.
Qed.

Lemma elem_of_build_components (instruments : list string) (name : string) :
  name ∈ build_components instruments <->
  exists instr, instr ∈ instruments /\
    (name = instr +:+ "_direct" \/ name = instr +:+ "_early").
Proof.
  rewrite build_components_flat_map, list_elem_of_In, in_flat_map.
  split; intros (instr & Hin & H); exists instr.
  - rewrite list_elem_of_In. split; [done|].
    destruct H as [<-|[<-|[]]]; auto.
  - rewrite <- list_elem_of_In. split; [done|].
    destruct H as [->| ->]; simpl; auto.
Qed.

Lemma build_components_length (instruments : list string) :
  length (build_components instruments) = 2 * length instruments.
Proof.
  rewrite build_components_flat_map.
  induction instruments as [|instr l IH]; simpl; [done | rewrite IH; lia].
Qed.

Lemma build_components_lookup (instruments : list string) (k : nat) (instr : string) :
  instruments !! k = Some instr ->
  build_components instruments !! (2 * k) = Some (instr +:+ "_direct") /\
  build_components instruments !! (2 * k + 1) = Some (instr +:+ "_early").
Proof.
  rewrite build_components_flat_map. revert k.
  induction instruments as [|x l IH]; intros k H; [done|].
  destruct k as [|k]; simpl in *.
  - by injection H as ->.
  - replace (k + S (k + 0)) with (S (2 * k)) by lia.
    replace (k + S (k + 0) + 1) with (S (2 * k + 1)) by lia.
    simpl. by apply IH.
Qed.

Lemma build_components_lookup_inv (instruments : list string) (idx : nat) (name : string) :
  build_components instruments !! idx = Some name ->
  exists k instr, instruments !! k = Some instr /\
    ((idx = 2 * k /\ name = instr +:+ "_direct") \/
     (idx = 2 * k + 1 /\ name = instr +:+ "_early")).
Proof.
  rewrite build_components_flat_map. revert idx.
  induction instruments as [|x l IH]; intros idx H; [done|].
  destruct idx as [|[|idx]]; simpl in H.
  - injection H as <-. exists 0, x. naive_solver.
  - injection H as <-. exists 0, x. naive_solver.
  - destruct (IH _ H) as (k & instr & Hk & Hcase).
    exists (S k), instr. split; [done|]. destruct Hcase as [[-> ->]|[-> ->]]; [left|right]; split; try done; lia.
Qed.

Lemma build_components_NoDup (instruments : list string) :
  NoDup instruments -> NoDup (build_components instruments).
Proof.
  intros Hnd. apply NoDup_alt. intros i j name Hi Hj.
  destruct (build_components_lookup_inv _ _ _ Hi) as (k1 & a & Ha & Ca).
  destruct (build_components_lookup_inv _ _ _ Hj) as (k2 & b & Hb & Cb).
  assert (a = b -> k1 = k2) as Hk.
  { intros ->. eapply NoDup_alt; eauto. }
  destruct Ca as [[-> ->]|[-> ->]], Cb as [[-> E]|[-> E]].
  - apply append_inj_l in E. rewrite (Hk E). done.
  - by apply direct_ne_early in E.
  - symmetry in E. by apply direct_ne_early in E.
  - apply append_inj_l in E. rewrite (Hk E). done.
Qed.

Lemma build_component_index_fold (components : list string) :
  build_component_index components =
  fold_left index_step (enumerate_from 0 components) ∅.
Proof. done. Qed.

Lemma index_fold_not_in (l : list string) (n : nat) (m : gmap string nat) (name : string) :
  name ∉ l -> fold_left index_step (enumerate_from n l) m !! name = m !! name.
Proof.
  revert n m. induction l as [|x l IH]; intros n m Hn; simpl; [done|].
  apply not_elem_of_cons in Hn as [Hx Hl].
  rewrite IH by done. by apply lookup_insert_ne.
Qed.

Lemma index_fold_inv (l : list string) (n : nat) (m : gmap string nat)
    (name : string) (i : nat) :
  fold_left index_step (enumerate_from n l) m !! name = Some i ->
  (exists j, l !! j = Some name /\ i = n + j) \/ ((name ∉ l) /\ m !! name = Some i).
Proof.
  revert n m. induction l as [|x l IH]; intros n m H; simpl in H.
  - right. split; [apply not_elem_of_nil | done].
  - destruct (IH _ _ H) as [(j & Hj & ->)|[Hn Hm]].
    + left. exists (S j). split; [done | lia].
    + destruct (decide (name = x)) as [->|Hne].
      * rewrite lookup_insert_eq in Hm. injection Hm as <-.
        left. exists 0. split; [done | lia].
      * rewrite lookup_insert_ne in Hm by done.
        right. split; [|done]. apply not_elem_of_cons. done.
Qed.

Lemma index_fold_lookup (l : list string) (n : nat) (m : gmap string nat)
    (name : string) (j : nat) :
  NoDup l -> l !! j = Some name ->
  fold_left index_step (enumerate_from n l) m !! name = Some (n + j).
Proof.
  revert n m j. induction l as [|x l IH]; intros n m j Hnd Hj; [done|].
  apply NoDup_cons in Hnd as [Hx Hnd]. destruct j as [|j]; simpl in *.
  - injection Hj as ->. rewrite index_fold_not_in by done.
    rewrite lookup_insert_eq. f_equal. lia.
  - rewrite (IH (S n) _ j) by done. f_equal. lia.
Qed.

Lemma index_fold_is_Some (l : list string) (n : nat) (m : gmap string nat) (name : string) :
  name ∈ l -> is_Some (fold_left index_step (enumerate_from n l) m !! name).
Proof.
  revert n m. induction l as [|x l IH]; intros n m Hin; [by apply elem_of_nil in Hin|].
  simpl. destruct (decide (name ∈ l)) as [Hl|Hl]; [by apply IH|].
  rewrite index_fold_not_in by done.
  apply elem_of_cons in Hin as [->|?]; [|done].
  rewrite lookup_insert_eq. eauto.
Qed.

Lemma build_component_index_is_Some (components : list string) (name : string) :
  name ∈ components -> is_Some (build_component_index components !! name).
Proof. apply index_fold_is_Some. Qed.

Lemma build_component_index_inv (components : list string) (name : string) (i : nat) :
  build_component_index components !! name = Some i -> components !! i = Some name.
Proof.
  intros H. apply index_fold_inv in H as [(j & Hj & ->)|[_ H]]; [done|].
  by rewrite lookup_empty in H.
Qed.

Lemma build_component_index_lookup (components : list string) (name : string) (i : nat) :
  NoDup components -> components !! i = Some name ->
  build_component_index components !! name = Some i.
Proof. intros Hnd Hi. by apply (index_fold_lookup _ 0 ∅ _ i). Qed.

(** ** What a parsed [Spec] is made of *)

Lemma parse_spec_file_Parsed (lines : list string) (spec : Spec) :
  parse_spec_file lines = Ret (Parsed spec) ->
  exists target_weights,
    first_pass (length lines) lines [] [] 0%float
      = Ret (instruments spec, target_weights, hall_gain_db spec) /\
    instruments spec <> [] /\
    components spec = build_components (instruments spec) /\
    component_index spec = build_component_index (components spec) /\
    build_target target_weights (component_index spec) ∅ = Ret (target spec) /\
    second_pass (length lines) lines (component_index spec) [] = Ret (signals spec).
Proof.
  unfold parse_spec_file. intros H.
  apply bind_Ret in H as ([[ins tw] hall] & Hfirst & H).
  destruct ins as [|instr ins]; [done|].
  apply bind_Ret in H as (tgt & Htarget & H).
  apply bind_Ret in H as (sigs & Hsecond & H).
  injection H as <-. simpl. exists tw. done.
Qed.

Lemma parsed_has_early (lines : list string) (spec : Spec) (instr : string) :
  parse_spec_file lines = Ret (Parsed spec) ->
  instr ∈ instruments spec ->
  is_Some (component_index spec !! (instr +:+ "_early")).
Proof.
  intros H Hin. apply parse_spec_file_Parsed in H as (_ & _ & _ & Hc & Hi & _).
  rewrite Hi, Hc. apply build_component_index_is_Some, elem_of_build_components.
  eauto.
Qed.

(** ** The hall augmenter *)

Lemma find_hall_Some (l : list string) (normalized instr : string) :
  List.find (is_hall_of normalized) l = Some instr <->
  instr ∈ l /\ normalized = instr +:+ "_hall".
Proof.
  split.
  - intros H. apply find_some in H as [Hin H].
    apply str_eqb_true in H. by rewrite list_elem_of_In.
  - intros [Hin ->]. induction l as [|x l IH]; [by apply elem_of_nil in Hin|].
    simpl. unfold is_hall_of at 1.
    destruct (str_eqb _ _) eqn:E.
    + apply str_eqb_true, append_inj_l in E. by rewrite E.
    + apply IH. apply elem_of_cons in Hin as [->|?]; [|done].
      apply str_eqb_false in E. done.
Qed.

Lemma find_hall_None (l : list string) (normalized : string) :
  List.find (is_hall_of normalized) l = None <->
  forall instr, instr ∈ l -> normalized <> instr +:+ "_hall".
Proof.
  split.
  - intros H instr Hin. apply list_elem_of_In in Hin.
    apply (find_none _ _ H) in Hin. by apply str_eqb_false in Hin.
  - intros H. destruct (List.find _ l) as [instr|] eqn:E; [|done].
    apply find_hall_Some in E as [Hin E]. by apply H in Hin.
Qed.

Lemma find_hall_iterates (order instruments : list string) (normalized : string) :
  iterates order instruments ->
  List.find (is_hall_of normalized) order = List.find (is_hall_of normalized) instruments.
Proof.
  intros [_ Hsame].
  destruct (List.find _ instruments) as [instr|] eqn:E.
  - apply find_hall_Some. apply find_hall_Some in E as [Hin E].
    split; [by apply Hsame | done].
  - apply find_hall_None. intros instr Hin.
    rewrite find_hall_None in E. apply E. by apply Hsame.
Qed.

(** The inner loop stops at the first instrument that matches. *)
Lemma hall_instrument_loop_find (order : list string) (spec : Spec)
    (gain : float) (track_name normalized : string) :
  hall_instrument_loop order spec gain track_name normalized =
  match List.find (is_hall_of normalized) order with
  | Some instr =>
      match component_index spec !! (instr +:+ "_early") with
      | Some idx =>
          append_signal spec
            {| name := track_name; weights := {[idx := gain]}; is_hall := true |}
      | None => spec
      end
  | None => spec
  end.
Proof.
  induction order as [|instr order IH]; simpl; [done|].
  unfold is_hall_of at 1. by destruct (str_eqb _ _).
Qed.

Lemma hall_track_loop_at_most (track_names order : list string) (spec : Spec)
    (gain : float) :
  exists appended,
    signals (hall_track_loop track_names order spec gain) = signals spec ++ appended /\
    length appended <= length track_names.
Proof.
  revert spec. induction track_names as [|track_name l IH]; intros spec; simpl.
  - exists []. split; [by rewrite app_nil_r | simpl; lia].
  - destruct (IH (hall_instrument_loop order spec gain track_name (normalize track_name)))
      as (more & Hmore & Hlen).
    rewrite Hmore, hall_instrument_loop_find.
    destruct (List.find _ order) as [instr|];
      [destruct (component_index spec !! _) as [idx|]|]; simpl.
    + eexists (_ :: more). rewrite <- app_assoc. split; [done | simpl; lia].
    + exists more. split; [done | lia].
    + exists more. split; [done | lia].
Qed.

(** C10. One supplied name appends at most one hall signal, whatever the
    order in which the instruments are tried and even if an instrument is
    tried twice: the loop stops at the first instrument whose hall name is
    the normalized supplied name, and the instruments after it are not
    looked at. A list of names therefore appends at most as many signals as
    it has names. *)
Theorem hall_instrument_loop_at_most_one (order : list string) (spec : Spec)
    (gain : float) (track_name : string) :
  (exists appended,
     signals (hall_instrument_loop order spec gain track_name (normalize track_name))
       = signals spec ++ appended /\ length appended <= 1) /\
  (forall before instr after,
     order = before ++ instr :: after ->
     normalize track_name = instr +:+ "_hall" ->
     hall_instrument_loop order spec gain track_name (normalize track_name)
       = hall_instrument_loop (before ++ [instr]) spec gain track_name
           (normalize track_name)) /\
  (forall track_names, exists appended,
     signals (hall_track_loop track_names order spec gain) = signals spec ++ appended /\
     length appended <= length track_names).
Proof.
  split; [|split].
  - rewrite hall_instrument_loop_find.
    assert (exists appended : list Signal,
              signals spec = signals spec ++ appended /\ length appended <= 1) as Hnone.
    { exists []. split; [by rewrite app_nil_r | simpl; lia]. }
    destruct (List.find _ order) as [instr|]; [|done].
    destruct (component_index spec !! _) as [idx|]; [|done].
    simpl. eexists [_]. split; [done | simpl; lia].
  - intros before instr after -> Hn. rewrite !hall_instrument_loop_find.
    assert (forall l, List.find (is_hall_of (normalize track_name)) (before ++ instr :: l)
                      = Some instr) as Hfind.
    { intros l. apply find_hall_Some. split; [|done].
      apply elem_of_app. right. apply elem_of_cons. by left. }
    by rewrite (Hfind after), (Hfind []).
  - intros track_names. apply hall_track_loop_at_most.
Qed.

Lemma hall_instrument_loop_signal_for (order : list string) (spec0 spec : Spec)
    (gain : float) (track_name : string) :
  iterates order (instruments spec0) ->
  component_index spec = component_index spec0 ->
  hall_instrument_loop order spec gain track_name (normalize track_name) =
  match hall_signal_for spec0 gain track_name with
  | Some signal => append_signal spec signal
  | None => spec
  end.
Proof.
  intros Hit Hci. rewrite hall_instrument_loop_find.
  rewrite (find_hall_iterates _ _ _ Hit).
  unfold hall_signal_for, hall_instrument. rewrite Hci.
  change (fun instr => str_eqb (normalize track_name) (instr +:+ "_hall"))
    with (is_hall_of (normalize track_name)).
  destruct (List.find _ _) as [instr|]; simpl; [|done].
  by destruct (component_index spec0 !! _).
Qed.

Lemma hall_track_loop_omap (track_names order : list string) (spec0 spec : Spec)
    (gain : float) :
  iterates order (instruments spec0) ->
  component_index spec = component_index spec0 ->
  hall_track_loop track_names order spec gain =
  with_more_signals spec (omap (hall_signal_for spec0 gain) track_names).
Proof.
  intros Hit. revert spec.
  induction track_names as [|track_name l IH]; intros spec Hci; simpl.
  - unfold with_more_signals. rewrite app_nil_r. by destruct spec.
  - rewrite (hall_instrument_loop_signal_for _ spec0) by done.
    destruct (hall_signal_for spec0 gain track_name) as [signal|]; [|by apply IH].
    rewrite IH by done. unfold with_more_signals, append_signal; simpl.
    by rewrite <- app_assoc.
Qed.

(** C4, as stated, fails: the text declares the instrument [gtr] and the
    hall gain 7000, the supplied name normalizes to [gtr_hall], and the
    augmenter raises [OverflowError] at [10 ** 350.0] before it appends
    anything. *)
Lemma add_hall_signals_counterexample :
  exists spec, parse_spec_file loud_text = Ret (Parsed spec) /\
    instruments spec = ["gtr"] /\
    hall_gain_db spec = 7000%float /\
    (hall_gain_db spec / 20 =? 350)%float = true /\
    normalize "Gtr Hall" = "gtr" +:+ "_hall" /\
    add_hall_signals pow_extremes ["gtr"] spec ["Gtr Hall"] = Raise OverflowError.
Proof.
  eexists. split; [vm_compute; reflexivity|].
  repeat split; vm_compute; reflexivity.
Qed.

(** C4, amended. For a parsed Spec the augmenter first computes the linear
    gain [10 ** (hall_gain_db / 20)]. When the power is in range, it appends,
    in the order of the supplied names, one signal for every name whose
    normalization is [instr_hall] for a declared instrument: it carries the
    supplied name, [is_hall = true] and the single weight entry from the
    index of [instr_early] to the linear gain; a name that matches no
    instrument appends nothing, and a name supplied twice is appended twice.
    When the power overflows, the augmenter raises and appends nothing. *)
Theorem add_hall_signals_appends (py_pow : float -> float -> res float)
    (lines : list string) (spec : Spec) (order track_names : list string) :
  parse_spec_file lines = Ret (Parsed spec) ->
  iterates order (instruments spec) ->
  match db_to_linear py_pow (hall_gain_db spec) with
  | Ret gain =>
      add_hall_signals py_pow order spec track_names =
      Ret (with_more_signals spec (omap (hall_signal_for spec gain) track_names))
  | Raise e => add_hall_signals py_pow order spec track_names = Raise e
  end /\
  forall gain track_name,
    match hall_signal_for spec gain track_name with
    | Some signal =>
        exists instr idx,
          instr ∈ instruments spec /\
          normalize track_name = instr +:+ "_hall" /\
          component_index spec !! (instr +:+ "_early") = Some idx /\
          signal = {| name := track_name; weights := {[idx := gain]}; is_hall := true |}
    | None =>
        forall instr, instr ∈ instruments spec ->
          normalize track_name <> instr +:+ "_hall"
    end.
Proof.
  intros Hparse Hit. split.
  - unfold add_hall_signals.
    destruct (db_to_linear py_pow (hall_gain_db spec)) as [gain|e]; simpl; [|done].
    by rewrite (hall_track_loop_omap _ _ spec).
  - intros gain track_name. unfold hall_signal_for, hall_instrument.
    change (fun instr => str_eqb (normalize track_name) (instr +:+ "_hall"))
      with (is_hall_of (normalize track_name)).
    destruct (List.find _ _) as [instr|] eqn:E; simpl.
    + apply find_hall_Some in E as [Hin E].
      destruct (parsed_has_early _ _ _ Hparse Hin) as [idx Hidx].
      rewrite Hidx. simpl. by exists instr, idx.
    + by apply find_hall_None.
Qed.

(** ** The component index is a bijection *)

(** C7. For a parsed Spec with [n] distinctly named instruments, instrument
    [k] has its direct component at index [2k] and its early component at
    index [2k+1]; the index mapping holds exactly these entries, so it is a
    bijection between the (instrument, direct or early) pairs and the
    indices below [2n]. *)
Theorem component_index_bijection (lines : list string) (spec : Spec) :
  parse_spec_file lines = Ret (Parsed spec) ->
  NoDup (instruments spec) ->
  let n := length (instruments spec) in
  length (components spec) = 2 * n /\
  (forall k instr, instruments spec !! k = Some instr ->
     component_index spec !! (instr +:+ "_direct") = Some (2 * k) /\
     component_index spec !! (instr +:+ "_early") = Some (2 * k + 1)) /\
  (forall name idx, component_index spec !! name = Some idx ->
     idx < 2 * n /\
     exists k instr, instruments spec !! k = Some instr /\
       ((idx = 2 * k /\ name = instr +:+ "_direct") \/
        (idx = 2 * k + 1 /\ name = instr +:+ "_early"))) /\
  (forall idx, idx < 2 * n -> exists name, component_index spec !! name = Some idx).
Proof.
  intros Hparse Hnd n.
  apply parse_spec_file_Parsed in Hparse as (_ & _ & _ & Hc & Hi & _).
  assert (NoDup (components spec)) as Hndc by (rewrite Hc; by apply build_components_NoDup).
  assert (length (components spec) = 2 * n) as Hlen
    by (rewrite Hc; apply build_components_length).
  split; [done|]. split; [|split].
  - intros k instr Hk. rewrite Hi.
    destruct (build_components_lookup _ _ _ Hk) as [Hd He].
    rewrite <- Hc in Hd, He.
    split; by apply build_component_index_lookup.
  - intros name idx H. rewrite Hi in H. apply build_component_index_inv in H.
    split; [rewrite <- Hlen; by eapply lookup_lt_Some|].
    rewrite Hc in H. by apply build_components_lookup_inv.
  - intros idx Hidx. rewrite <- Hlen in Hidx.
    destruct (lookup_lt_is_Some_2 _ _ Hidx) as [name Hname].
    exists name. rewrite Hi. by apply build_component_index_lookup.
Qed.

(** ** Signal weights only mention indexed components *)

Lemma known_empty (component_index : gmap string nat) : known component_index ∅.
Proof. intros idx weight H. by rewrite lookup_empty in H. Qed.

Lemma known_insert (component_index : gmap string nat) (weights : gmap nat float)
    (name : string) (idx : nat) (weight : float) :
  component_index !! name = Some idx -> known component_index weights ->
  known component_index (<[idx := weight]> weights).
Proof.
  intros Hname Hk i w H. destruct (decide (i = idx)) as [->|Hne]; [eauto|].
  rewrite lookup_insert_ne in H by done. eauto.
Qed.

Lemma parse_signal_components_loop_known (parts : list string) (signal_name : string)
    (component_index : gmap string nat) (result weights : gmap nat float) :
  known component_index result ->
  parse_signal_components_loop parts signal_name component_index result = Ret weights ->
  known component_index weights.
Proof.
  revert result. induction parts as [|part parts IH]; intros result Hk H; simpl in H.
  - by injection H as <-.
  - destruct (is_match _); [|by eapply IH].
    apply bind_Ret in H as (weight & _ & H).
    destruct (component_index !! _) as [idx|] eqn:E; [|by eapply IH].
    eapply IH; [|done]. by eapply known_insert.
Qed.

Lemma parse_nested_signal_loop_known (rest : list string)
    (component_index : gmap string nat) (weights : gmap nat float)
    (current : option string) (current_weight : float) (base : option nat)
    (result : gmap nat float) (rest' : list string) :
  known component_index weights ->
  parse_nested_signal_loop rest component_index weights current current_weight base
    = Ret (result, rest') ->
  known component_index result.
Proof.
  revert weights current current_weight base.
  induction rest as [|line rest IH]; intros weights current cw base Hk H; simpl in H.
  - by injection H as <- _.
  - destruct (blank_or_comment _); [by eapply IH|].
    destruct (_ && truthy _); [by injection H as <- _|].
    destruct (is_match _ && _).
    { apply bind_Ret in H as (weight & _ & H). by eapply IH. }
    destruct (_ && _ && _); [|by eapply IH].
    apply bind_Ret in H as (weight & _ & H).
    destruct (component_index !! _) as [idx|] eqn:E; [|by eapply IH].
    eapply IH; [|done]. by eapply known_insert.
Qed.

Lemma second_pass_known (fuel : nat) (rest : list string)
    (component_index : gmap string nat) (signals result : list Signal) :
  Forall (fun signal => known component_index (weights signal)) signals ->
  second_pass fuel rest component_index signals = Ret result ->
  Forall (fun signal => known component_index (weights signal)) result.
Proof.
  revert rest signals. induction fuel as [|fuel IH]; intros rest signals Hk H.
  - simpl in H. by injection H as <-.
  - destruct rest as [|line rest]; simpl in H; [by injection H as <-|].
    destruct (blank_or_comment _); [by eapply IH|].
    destruct (is_match (rmatch re_signal_nested _)).
    { apply bind_Ret in H as ([w rest'] & Hw & H).
      eapply IH; [|done]. apply Forall_app. split; [done|].
      apply Forall_singleton. simpl.
      eapply parse_nested_signal_loop_known; [|done]. apply known_empty. }
    destruct (is_match _); [|by eapply IH].
    apply bind_Ret in H as (w & Hw & H).
    eapply IH; [|done]. apply Forall_app. split; [done|].
    apply Forall_singleton. simpl.
    eapply parse_signal_components_loop_known; [|done]. apply known_empty.
Qed.

(** C8. In a parsed Spec every index a signal's weights mention is the index
    of a name of the component index mapping. A token of an inline signal, or
    a ratio line of a nested signal, that names a component the mapping does
    not hold is passed over: the loop goes on with the weights unchanged and
    nothing is raised for it. *)
Theorem weights_reference_known_components (lines : list string) (spec : Spec) :
  parse_spec_file lines = Ret (Parsed spec) ->
  (forall signal idx weight,
     signal ∈ signals spec -> weights signal !! idx = Some weight ->
     exists name, component_index spec !! name = Some idx) /\
  (forall part parts signal_name result weight,
     let m := rmatch re_component (strip part) in
     let name := if str_eqb (group m 2) "direct"
                 then signal_name +:+ "_direct" else group m 2 in
     is_match m = true -> py_float (group m 1) = Ret weight ->
     component_index spec !! name = None ->
     parse_signal_components_loop (part :: parts) signal_name (component_index spec) result
       = parse_signal_components_loop parts signal_name (component_index spec) result) /\
  (forall line rest weights current current_weight base ratio,
     let stripped := strip line in
     let m := rmatch re_ratio stripped in
     blank_or_comment stripped = false ->
     is_match (rmatch re_instrument stripped) && (indent_of line =? base)%nat = false ->
     is_match m = true -> truthy current = true -> (base <? indent_of line)%nat = true ->
     py_float (group m 2) = Ret ratio ->
     component_index spec !! (current +:+ "_" +:+ group m 1) = None ->
     parse_nested_signal_loop (line :: rest) (component_index spec) weights
       (Some current) current_weight (Some base)
     = parse_nested_signal_loop rest (component_index spec) weights
         (Some current) current_weight (Some base)).
Proof.
  intros Hparse. split; [|split].
  - intros signal idx weight Hin Hw.
    apply parse_spec_file_Parsed in Hparse as (_ & _ & _ & _ & _ & _ & Hs).
    apply second_pass_known in Hs; [|by apply Forall_nil].
    rewrite Forall_forall in Hs. by apply (Hs signal Hin idx weight).
  - intros part parts signal_name result weight m name Hm Hw Hname.
    simpl. fold m. rewrite Hm, Hw. simpl. fold name. by rewrite Hname.
  - intros line rest weights current cw base ratio stripped m Hb Hi Hm Ht Hlt Hr Hname.
    simpl. fold stripped. rewrite Hb.
    assert ((indent_of line <? base)%nat = false) as ->.
    { apply Nat.ltb_lt in Hlt. apply Nat.ltb_ge. lia. }
    simpl. rewrite Hi. fold m. rewrite Hm, Hlt. simpl. rewrite Ht. simpl.
    rewrite Hr. simpl. by rewrite Hname.
Qed.

(** ** Ordered dictionaries *)

Lemma odict_get_set {V} (k k' : string) (v : V) (d : ODict.t V) :
  ODict.get k' (ODict.set k v d) = if str_eqb k' k then Some v else ODict.get k' d.
Proof.
  induction d as [|[k0 v0] d IH]; simpl.
  - done.
  - destruct (str_eqb k k0) eqn:E; simpl.
    + apply str_eqb_true in E as <-. by destruct (str_eqb k' k).
    + rewrite IH. destruct (str_eqb k' k0) eqn:E0; [|done].
      apply str_eqb_true in E0 as ->.
      destruct (str_eqb k0 k) eqn:E1; [|done].
      apply str_eqb_true in E1 as ->. apply str_eqb_false in E. done.
Qed.

Lemma odict_keys_set {V} (k x : string) (v : V) (d : ODict.t V) :
  x ∈ ODict.keys (ODict.set k v d) -> x = k \/ x ∈ ODict.keys d.
Proof.
  unfold ODict.keys. induction d as [|[k0 v0] d IH]; simpl.
  - intros H. apply elem_of_cons in H as [->|H]; [by left | by right].
  - destruct (str_eqb k k0) eqn:E; simpl; intros H.
    + apply str_eqb_true in E as <-. apply elem_of_cons in H as [->|H]; [by left|].
      right. apply elem_of_cons. by right.
    + apply elem_of_cons in H as [->|H]; [right; apply elem_of_cons; by left|].
      destruct (IH H) as [->|?]; [by left|]. right. apply elem_of_cons. by right.
Qed.

(** ** Blocks *)

Lemma block_end_suffix (rest : list string) (base : option nat) :
  exists before, rest = before ++ block_end rest base.
Proof.
  revert base. induction rest as [|line rest IH]; intros base; simpl.
  - by exists [].
  - destruct (blank_or_comment _).
    { destruct (IH base) as [before E]. exists (line :: before). simpl. by rewrite <- E. }
    destruct (_ <? _)%nat; [by exists []|].
    destruct (IH (Some (default (indent_of line) base))) as [before E].
    exists (line :: before). simpl. by rewrite <- E.
Qed.

Lemma block_end_length (rest : list string) (base : option nat) :
  length (block_end rest base) <= length rest.
Proof.
  destruct (block_end_suffix rest base) as [before E].
  rewrite E at 2. rewrite length_app. lia.
Qed.

Lemma block_end_Forall (P : string -> Prop) (rest : list string) (base : option nat) :
  Forall P rest -> Forall P (block_end rest base).
Proof.
  destruct (block_end_suffix rest base) as [before E].
  rewrite E at 1. by intros [_ ?]%Forall_app.
Qed.

Lemma base_of_default (line : string) (base : option nat) :
  base_of line base = default (indent_of line) base.
Proof. by destruct base. Qed.

(** The lines a target block leaves are those after the end of the block. *)
Lemma parse_nested_target_loop_rest (rest : list string) (instruments : list string)
    (target_weights : ODict.t (gmap string float)) (current : option string)
    (base : option nat) instruments' target_weights' rest' :
  parse_nested_target_loop rest instruments target_weights current base
    = Ret (instruments', target_weights', rest') ->
  rest' = block_end rest base.
Proof.
  revert instruments target_weights current base.
  induction rest as [|line rest IH]; intros ins tw cur base H; simpl in H |- *.
  - by injection H as _ _ <-.
  - destruct (blank_or_comment _) eqn:Eb; [by eapply IH|].
    fold (base_of line base) in H. rewrite <- base_of_default.
    assert (truthy (strip line) = true) as Ht.
    { unfold blank_or_comment in Eb. apply orb_false_iff in Eb as [Eb _].
      by apply negb_false_iff in Eb. }
    rewrite Ht, andb_true_r in H.
    destruct (_ <? _)%nat; [by injection H as _ _ <-|].
    destruct (is_match _ && _).
    { apply bind_Ret in H as (weight & _ & H). by eapply IH. }
    destruct (_ && _ && _); [|by eapply IH].
    apply bind_Ret in H as (weight & _ & H).
    apply bind_Ret in H as (entry & _ & H). by eapply IH.
Qed.

Lemma parse_nested_signal_loop_rest (rest : list string)
    (component_index : gmap string nat) (weights : gmap nat float)
    (current : option string) (current_weight : float) (base : option nat)
    weights' rest' :
  parse_nested_signal_loop rest component_index weights current current_weight base
    = Ret (weights', rest') ->
  rest' = block_end rest base.
Proof.
  revert weights current current_weight base.
  induction rest as [|line rest IH]; intros w cur cw base H; simpl in H |- *.
  - by injection H as _ <-.
  - destruct (blank_or_comment _) eqn:Eb; [by eapply IH|].
    fold (base_of line base) in H. rewrite <- base_of_default.
    assert (truthy (strip line) = true) as Ht.
    { unfold blank_or_comment in Eb. apply orb_false_iff in Eb as [Eb _].
      by apply negb_false_iff in Eb. }
    rewrite Ht, andb_true_r in H.
    destruct (_ <? _)%nat; [by injection H as _ <-|].
    destruct (is_match _ && _).
    { apply bind_Ret in H as (weight & _ & H). by eapply IH. }
    destruct (_ && _ && _); [|by eapply IH].
    apply bind_Ret in H as (weight & _ & H).
    destruct (component_index !! _); by eapply IH.
Qed.
(** ** The fuel of the passes is enough

    Any fuel that is at least the number of lines left gives the same
    result: the bound never cuts a pass short. *)

Lemma first_pass_fuel (fuel fuel' : nat) (rest : list string) (instruments : list string)
    (target_weights : ODict.t (gmap string float)) (hall : float) :
  length rest <= fuel -> length rest <= fuel' ->
  first_pass fuel rest instruments target_weights hall
  = first_pass fuel' rest instruments target_weights hall.
Proof.
  revert fuel' rest instruments target_weights hall.
  induction fuel as [|fuel IH]; intros fuel' rest ins tw hall Hlen Hlen'.
  - destruct rest; [by destruct fuel' | simpl in Hlen; lia].
  - destruct rest as [|line rest]; [by destruct fuel'|].
    destruct fuel' as [|fuel']; simpl in Hlen, Hlen'; [lia|]. simpl.
    destruct (str_eqb _ _).
    + destruct (parse_nested_target rest) as [[[ins1 tw1] rest1]|e] eqn:E; [|done].
      simpl. apply parse_nested_target_loop_rest in E as ->.
      pose proof (block_end_length rest None). apply IH; lia.
    + destruct (is_match _).
      * destruct (py_float _); [|done]. simpl. apply IH; lia.
      * apply IH; lia.
Qed.

Lemma second_pass_fuel (fuel fuel' : nat) (rest : list string)
    (component_index : gmap string nat) (signals : list Signal) :
  length rest <= fuel -> length rest <= fuel' ->
  second_pass fuel rest component_index signals
  = second_pass fuel' rest component_index signals.
Proof.
  revert fuel' rest signals.
  induction fuel as [|fuel IH]; intros fuel' rest sigs Hlen Hlen'.
  - destruct rest; [by destruct fuel' | simpl in Hlen; lia].
  - destruct rest as [|line rest]; [by destruct fuel'|].
    destruct fuel' as [|fuel']; simpl in Hlen, Hlen'; [lia|]. simpl.
    destruct (blank_or_comment _); [apply IH; lia|].
    destruct (is_match (rmatch re_signal_nested _)).
    + destruct (parse_nested_signal rest component_index) as [[w rest1]|e] eqn:E; [|done].
      simpl. apply parse_nested_signal_loop_rest in E as ->.
      pose proof (block_end_length rest None). apply IH; lia.
    + destruct (is_match _).
      * destruct (parse_signal_components _ _ _); [|done]. simpl. apply IH; lia.
      * apply IH; lia.
Qed.

Lemma outside_target_fuel (fuel fuel' : nat) (rest : list string) :
  length rest <= fuel -> length rest <= fuel' ->
  outside_target fuel rest = outside_target fuel' rest.
Proof.
  revert fuel' rest. induction fuel as [|fuel IH]; intros fuel' rest Hlen Hlen'.
  - destruct rest; [by destruct fuel' | simpl in Hlen; lia].
  - destruct rest as [|line rest]; [by destruct fuel'|].
    destruct fuel' as [|fuel']; simpl in Hlen, Hlen'; [lia|]. simpl.
    destruct (str_eqb _ _).
    + pose proof (block_end_length rest None). apply IH; lia.
    + f_equal. apply IH; lia.
Qed.

(** ** Parsing returns when the numbers are well formed *)

Lemma forallb_Forall {A} (f : A -> bool) (l : list A) :
  forallb f l = true -> Forall (fun x => f x = true) l.
Proof.
  induction l as [|x l IH]; simpl; [by constructor|].
  intros [Hx Hl]%andb_true_iff. constructor; [done | by apply IH].
Qed.

Lemma float_ok_returns (s : string) : float_ok s = true -> returns (py_float s).
Proof. unfold float_ok, returns. destruct (py_float s); [eauto | done]. Qed.

Lemma group_ok_returns (p : pattern) (n : nat) (stripped : string) :
  group_ok p n stripped = true -> is_match (rmatch p stripped) = true ->
  returns (py_float (group (rmatch p stripped) n)).
Proof.
  unfold group_ok. intros H Hm. rewrite Hm in H. by apply float_ok_returns.
Qed.

Lemma line_ok_instrument (line : string) :
  line_ok line -> is_match (rmatch re_instrument (strip line)) = true ->
  returns (py_float (group (rmatch re_instrument (strip line)) 2)).
Proof.
  unfold line_ok, line_numbers_ok. rewrite !andb_true_iff.
  intros [[[H _] _] _]. by apply group_ok_returns.
Qed.

Lemma line_ok_ratio (line : string) :
  line_ok line -> is_match (rmatch re_ratio (strip line)) = true ->
  returns (py_float (group (rmatch re_ratio (strip line)) 2)).
Proof.
  unfold line_ok, line_numbers_ok. rewrite !andb_true_iff.
  intros [[[_ H] _] _]. by apply group_ok_returns.
Qed.

Lemma line_ok_hall_gain (line : string) :
  line_ok line -> is_match (rmatch re_hall_gain (strip line)) = true ->
  returns (py_float (group (rmatch re_hall_gain (strip line)) 1)).
Proof.
  unfold line_ok, line_numbers_ok. rewrite !andb_true_iff.
  intros [[_ H] _]. by apply group_ok_returns.
Qed.

Lemma line_ok_inline (line : string) :
  line_ok line -> is_match (rmatch re_signal_inline (strip line)) = true ->
  Forall (fun part => group_ok re_component 1 (strip part) = true)
    (split_comma (group (rmatch re_signal_inline (strip line)) 2)).
Proof.
  unfold line_ok, line_numbers_ok. rewrite !andb_true_iff.
  intros [_ H] Hm. rewrite Hm in H. simpl in H.
  by apply forallb_Forall in H.
Qed.

Lemma truthy_opt_Some (current : option string) :
  truthy_opt current = true -> exists c, current = Some c.
Proof. destruct current; [eauto | done]. Qed.

Lemma parse_nested_target_loop_returns (rest : list string) (instruments : list string)
    (target_weights : ODict.t (gmap string float)) (current : option string)
    (base : option nat) :
  Forall line_ok rest -> current_ok target_weights current ->
  returns (parse_nested_target_loop rest instruments target_weights current base).
Proof.
  revert instruments target_weights current base.
  induction rest as [|line rest IH]; intros ins tw cur base Hok Hcur; simpl.
  - by eexists.
  - apply Forall_cons in Hok as [Hline Hok].
    destruct (blank_or_comment _); [by apply IH|].
    destruct (_ && truthy _); [by eexists|].
    destruct (is_match (rmatch re_instrument _) && _) eqn:E1.
    { apply andb_true_iff in E1 as [E1 _].
      apply returns_bind; [by apply line_ok_instrument|].
      intros weight _. apply IH; [done|].
      intros c [= <-]. rewrite odict_get_set.
      replace (str_eqb _ _) with true by (symmetry; by apply str_eqb_true). eauto. }
    destruct (is_match (rmatch re_ratio _) && _ && _) eqn:E2; [|by apply IH].
    apply andb_true_iff in E2 as [E2 _]. apply andb_true_iff in E2 as [E2 Et].
    apply truthy_opt_Some in Et as [c ->]. simpl.
    apply returns_bind; [by apply line_ok_ratio|].
    intros weight _.
    destruct (Hcur c eq_refl) as [entry Hentry]. rewrite Hentry. simpl.
    apply IH; [done|].
    intros c' [= <-]. rewrite odict_get_set.
    replace (str_eqb _ _) with true by (symmetry; by apply str_eqb_true). eauto.
Qed.

Lemma odict_get_keys {V} (k : string) (v : V) (d : ODict.t V) :
  ODict.get k d = Some v -> k ∈ ODict.keys d.
Proof.
  unfold ODict.keys. induction d as [|[k0 v0] d IH]; simpl; [done|].
  destruct (str_eqb k k0) eqn:E.
  - apply str_eqb_true in E as ->. intros _. apply elem_of_cons. by left.
  - intros H. apply elem_of_cons. right. by apply IH.
Qed.

Lemma parse_nested_target_loop_keys (rest : list string) (instruments : list string)
    (target_weights : ODict.t (gmap string float)) (current : option string)
    (base : option nat) instruments' target_weights' rest' :
  keys_declared target_weights instruments ->
  parse_nested_target_loop rest instruments target_weights current base
    = Ret (instruments', target_weights', rest') ->
  keys_declared target_weights' instruments'.
Proof.
  revert instruments target_weights current base.
  induction rest as [|line rest IH]; intros ins tw cur base Hk H; simpl in H.
  - by injection H as <- <- _.
  - destruct (blank_or_comment _); [by eapply IH|].
    destruct (_ && truthy _); [by injection H as <- <- _|].
    destruct (is_match _ && _).
    { apply bind_Ret in H as (weight & _ & H). eapply IH; [|done].
      intros k Hin. apply odict_keys_set in Hin as [->|Hin].
      - apply elem_of_app. right. apply elem_of_cons. by left.
      - apply elem_of_app. left. by apply Hk. }
    destruct (_ && _ && _); [|by eapply IH].
    apply bind_Ret in H as (weight & _ & H).
    apply bind_Ret in H as (entry & Hentry & H).
    eapply IH; [|done].
    intros k Hin. apply odict_keys_set in Hin as [->|Hin]; [|by apply Hk].
    apply Hk. destruct (ODict.get _ tw) as [e|] eqn:E; [|done].
    by eapply odict_get_keys.
Qed.

Lemma first_pass_returns (fuel : nat) (rest : list string) (instruments : list string)
    (target_weights : ODict.t (gmap string float)) (hall : float) :
  Forall line_ok rest ->
  returns (first_pass fuel rest instruments target_weights hall).
Proof.
  revert rest instruments target_weights hall.
  induction fuel as [|fuel IH]; intros rest ins tw hall Hok; [by eexists|].
  destruct rest as [|line rest]; simpl; [by eexists|].
  apply Forall_cons in Hok as [Hline Hok].
  destruct (str_eqb _ _).
  - apply returns_bind.
    + apply parse_nested_target_loop_returns; [done|]. by intros c.
    + intros [[ins' tw'] rest'] H.
      apply parse_nested_target_loop_rest in H as ->.
      apply IH. by apply block_end_Forall.
  - destruct (is_match _) eqn:E; [|by apply IH].
    apply returns_bind; [by apply line_ok_hall_gain|].
    intros gain _. by apply IH.
Qed.

Lemma first_pass_keys (fuel : nat) (rest : list string) (instruments : list string)
    (target_weights : ODict.t (gmap string float)) (hall : float)
    instruments' target_weights' hall' :
  keys_declared target_weights instruments ->
  first_pass fuel rest instruments target_weights hall
    = Ret (instruments', target_weights', hall') ->
  keys_declared target_weights' instruments'.
Proof.
  revert rest instruments target_weights hall.
  induction fuel as [|fuel IH]; intros rest ins tw hall Hk H.
  - simpl in H. by injection H as <- <- _.
  - destruct rest as [|line rest]; simpl in H; [by injection H as <- <- _|].
    destruct (str_eqb _ _).
    + apply bind_Ret in H as ([[ins1 tw1] rest1] & H1 & H).
      eapply IH; [|done].
      eapply parse_nested_target_loop_keys; [|done]. by intros k Hin.
    + destruct (is_match _); [|by eapply IH].
      apply bind_Ret in H as (gain & _ & H). by eapply IH.
Qed.

(** Without a [target:] line the first pass declares nothing. *)
Lemma first_pass_no_header (fuel : nat) (rest : list string) (instruments : list string)
    (target_weights : ODict.t (gmap string float)) (hall : float)
    instruments' target_weights' hall' :
  has_target_header rest = false ->
  first_pass fuel rest instruments target_weights hall
    = Ret (instruments', target_weights', hall') ->
  instruments' = instruments.
Proof.
  revert rest instruments target_weights hall.
  induction fuel as [|fuel IH]; intros rest ins tw hall Hh H.
  - simpl in H. by injection H as <- _ _.
  - destruct rest as [|line rest]; simpl in H; [by injection H as <- _ _|].
    simpl in Hh. apply orb_false_iff in Hh as [Hline Hh]. rewrite Hline in H.
    destruct (is_match _); [|by eapply IH].
    apply bind_Ret in H as (gain & _ & H). by eapply IH.
Qed.

Lemma build_target_returns (items : ODict.t (gmap string float))
    (component_index : gmap string nat) (target : gmap nat float) :
  (forall k, k ∈ ODict.keys items ->
     is_Some (component_index !! (k +:+ "_direct")) /\
     is_Some (component_index !! (k +:+ "_early"))) ->
  returns (build_target items component_index target).
Proof.
  revert target. induction items as [|[instr weights] items IH]; intros target Hk; simpl.
  - by eexists.
  - destruct (Hk instr) as [[d Hd] [e He]]; [apply elem_of_cons; by left|].
    rewrite Hd, He. simpl. apply IH.
    intros k Hin. apply Hk. apply elem_of_cons. by right.
Qed.

Lemma parse_signal_components_loop_returns (parts : list string) (signal_name : string)
    (component_index : gmap string nat) (result : gmap nat float) :
  Forall (fun part => group_ok re_component 1 (strip part) = true) parts ->
  returns (parse_signal_components_loop parts signal_name component_index result).
Proof.
  revert result. induction parts as [|part parts IH]; intros result Hok; simpl.
  - by eexists.
  - apply Forall_cons in Hok as [Hpart Hok].
    destruct (is_match _) eqn:E; [|by apply IH].
    apply returns_bind; [by apply group_ok_returns|].
    intros weight _. destruct (component_index !! _); by apply IH.
Qed.

Lemma parse_nested_signal_loop_returns (rest : list string)
    (component_index : gmap string nat) (weights : gmap nat float)
    (current : option string) (current_weight : float) (base : option nat) :
  Forall line_ok rest ->
  returns (parse_nested_signal_loop rest component_index weights
             current current_weight base).
Proof.
  revert weights current current_weight base.
  induction rest as [|line rest IH]; intros w cur cw base Hok; simpl.
  - by eexists.
  - apply Forall_cons in Hok as [Hline Hok].
    destruct (blank_or_comment _); [by apply IH|].
    destruct (_ && truthy _); [by eexists|].
    destruct (is_match (rmatch re_instrument _) && _) eqn:E1.
    { apply andb_true_iff in E1 as [E1 _].
      apply returns_bind; [by apply line_ok_instrument|].
      intros weight _. by apply IH. }
    destruct (is_match (rmatch re_ratio _) && _ && _) eqn:E2; [|by apply IH].
    apply andb_true_iff in E2 as [E2 _]. apply andb_true_iff in E2 as [E2 _].
    apply returns_bind; [by apply line_ok_ratio|].
    intros weight _. destruct (component_index !! _); by apply IH.
Qed.

Lemma second_pass_returns (fuel : nat) (rest : list string)
    (component_index : gmap string nat) (signals : list Signal) :
  Forall line_ok rest ->
  returns (second_pass fuel rest component_index signals).
Proof.
  revert rest signals. induction fuel as [|fuel IH]; intros rest sigs Hok; [by eexists|].
  destruct rest as [|line rest]; simpl; [by eexists|].
  apply Forall_cons in Hok as [Hline Hok].
  destruct (blank_or_comment _); [by apply IH|].
  destruct (is_match (rmatch re_signal_nested _)).
  { apply returns_bind; [by apply parse_nested_signal_loop_returns|].
    intros [w rest'] H. apply parse_nested_signal_loop_rest in H as ->.
    apply IH. by apply block_end_Forall. }
  destruct (is_match _) eqn:E; [|by apply IH].
  apply returns_bind.
  - apply parse_signal_components_loop_returns. by apply line_ok_inline.
  - intros w _. by apply IH.
Qed.

(** C2, as stated, fails: this text has a target block, its malformed
    instrument line is skipped, and parsing ends with the ParseError. *)
Lemma parse_error_counterexample :
  has_target_header colonless_text = true /\
  parse_spec_file colonless_text = Ret (ParseError no_target_message).
Proof. split; vm_compute; reflexivity. Qed.

(** The instruments the nested parser returns are those the text of the
    block declares. *)
Lemma parse_nested_target_loop_instruments (rest : list string) (instruments : list string)
    (target_weights : ODict.t (gmap string float)) (current : option string)
    (base : option nat) (b : nat) instruments' target_weights' rest' :
  match base with
  | Some b0 => b = b0
  | None => first_content_indent rest = Some b \/ first_content_indent rest = None
  end ->
  parse_nested_target_loop rest instruments target_weights current base
    = Ret (instruments', target_weights', rest') ->
  instruments' = instruments ++ omap (instrument_line b) (block_lines rest base).
Proof.
  revert instruments target_weights current base.
  induction rest as [|line rest IH]; intros ins tw cur base Hb H; simpl in H |- *.
  - injection H as <- _ _. by rewrite app_nil_r.
  - destruct (blank_or_comment (strip line)) eqn:Eb.
    + simpl. unfold instrument_line at 1. rewrite Eb.
      eapply IH; [|exact H]. destruct base; [done|]. simpl in Hb. by rewrite Eb in Hb.
    + assert (default (indent_of line) base = b) as Hbase.
      { destruct base; simpl; [done|]. simpl in Hb. rewrite Eb in Hb.
        by destruct Hb as [[= ->]|?]. }
      fold (base_of line base) in H. rewrite base_of_default, Hbase in H. rewrite Hbase.
      assert (truthy (strip line) = true) as Ht.
      { unfold blank_or_comment in Eb. apply orb_false_iff in Eb as [Eb _].
        by apply negb_false_iff in Eb. }
      rewrite Ht, andb_true_r in H.
      destruct (_ <? _)%nat; [injection H as <- _ _; by rewrite app_nil_r|].
      simpl. unfold instrument_line at 1. rewrite Eb.
      destruct (is_match _ && _).
      { apply bind_Ret in H as (weight & _ & H).
        eapply (IH _ _ _ (Some b)) in H; [|done]. by rewrite <- app_assoc in H. }
      destruct (_ && _ && _); [|by eapply (IH _ _ _ (Some b))].
      apply bind_Ret in H as (weight & _ & H).
      apply bind_Ret in H as (entry & _ & H). by eapply (IH _ _ _ (Some b)).
Qed.

Lemma parse_nested_target_instruments (rest : list string) instruments target_weights rest' :
  parse_nested_target rest = Ret (instruments, target_weights, rest') ->
  instruments = block_instruments rest.
Proof.
  intros H. unfold block_instruments.
  eapply parse_nested_target_loop_instruments in H; [exact H|].
  destruct (first_content_indent rest); simpl; eauto.
Qed.

(** The first pass ends with the instruments of the last target block. *)
Lemma first_pass_instruments (fuel : nat) (rest : list string) (instruments : list string)
    (target_weights : ODict.t (gmap string float)) (hall : float)
    instruments' target_weights' hall' :
  first_pass fuel rest instruments target_weights hall
    = Ret (instruments', target_weights', hall') ->
  instruments' = match last (target_blocks fuel rest) with
                 | Some body => block_instruments body
                 | None => instruments
                 end.
Proof.
  revert rest instruments target_weights hall.
  induction fuel as [|fuel IH]; intros rest ins tw hall H.
  - simpl in H. by injection H as <- _ _.
  - destruct rest as [|line rest]; simpl in H |- *; [by injection H as <- _ _|].
    destruct (str_eqb _ _).
    + apply bind_Ret in H as ([[ins1 tw1] rest1] & H1 & H).
      pose proof (parse_nested_target_instruments _ _ _ _ H1) as ->.
      apply parse_nested_target_loop_rest in H1 as ->.
      apply IH in H. rewrite last_cons. by destruct (last _).
    + destruct (is_match _); [|by eapply IH].
      apply bind_Ret in H as (gain & _ & H). by eapply IH.
Qed.

Lemma target_blocks_no_header (fuel : nat) (rest : list string) :
  has_target_header rest = false -> target_blocks fuel rest = [].
Proof.
  revert rest. induction fuel as [|fuel IH]; intros rest Hh; [done|].
  destruct rest as [|line rest]; simpl; [done|].
  simpl in Hh. apply orb_false_iff in Hh as [-> Hh]. by apply IH.
Qed.

(** C2, amended. When every number a line pattern captures is a text
    [float] accepts, parsing returns, whatever else the lines hold, and what
    it returns is read off the text. The instruments of the text are those
    its last target block declares: the names of the lines of the shape
    [name: number] at the block's base indent. When there is none, parsing
    returns the ParseError; this is the case of every text without a
    [target:] line, and of a text whose last target block holds no
    well-formed instrument line. Otherwise parsing returns a Spec, whose
    instruments are those of the text. *)
Theorem parse_spec_file_returns (lines : list string) :
  numbers_ok lines = true ->
  match text_instruments lines with
  | [] => parse_spec_file lines = Ret (ParseError no_target_message)
  | _ :: _ =>
      exists spec, parse_spec_file lines = Ret (Parsed spec) /\
        instruments spec = text_instruments lines
  end /\
  (has_target_header lines = false -> text_instruments lines = []).
Proof.
  intros Hok. apply forallb_Forall in Hok. split.
  2: { intros Hh. unfold text_instruments. by rewrite target_blocks_no_header. }
  unfold parse_spec_file.
  destruct (first_pass_returns (length lines) lines [] [] 0%float Hok)
    as [[[ins tw] hall] Hfirst].
  rewrite Hfirst. simpl.
  assert (ins = text_instruments lines) as Hins.
  { apply first_pass_instruments in Hfirst as ->. unfold text_instruments.
    by destruct (last _). }
  rewrite <- Hins.
  destruct ins as [|instr ins]; [done|].
  set (index := build_component_index (build_components (instr :: ins))).
  destruct (build_target_returns tw index ∅) as [target Htarget].
  { intros k Hin.
    assert (k ∈ instr :: ins) as Hk.
    { eapply first_pass_keys; [|exact Hfirst|exact Hin]. by intros k' Hk'. }
    split; apply build_component_index_is_Some, elem_of_build_components; eauto. }
  rewrite Htarget. simpl.
  destruct (second_pass_returns (length lines) lines index [] Hok) as [sigs Hsecond].
  rewrite Hsecond. simpl.
  eexists. split; [reflexivity|]. reflexivity.
Qed.

(** ** The hall gain *)

Lemma first_pass_hall_gain (fuel : nat) (rest : list string) (instruments : list string)
    (target_weights : ODict.t (gmap string float)) (hall : float)
    instruments' target_weights' hall' :
  first_pass fuel rest instruments target_weights hall
    = Ret (instruments', target_weights', hall') ->
  hall_gain_after hall (omap hall_gain_text (outside_target fuel rest)) hall'.
Proof.
  unfold hall_gain_after.
  revert rest instruments target_weights hall.
  induction fuel as [|fuel IH]; intros rest ins tw hall H.
  - simpl in H. by injection H as _ _ <-.
  - destruct rest as [|line rest]; simpl in H |- *; [by injection H as _ _ <-|].
    destruct (str_eqb _ _).
    + apply bind_Ret in H as ([[ins1 tw1] rest1] & H1 & H).
      apply parse_nested_target_loop_rest in H1 as ->. by eapply IH.
    + simpl. unfold hall_gain_text at 1.
      destruct (is_match _); [|by eapply IH].
      apply bind_Ret in H as (gain & Hgain & H).
      apply IH in H. rewrite last_cons.
      destruct (last _) as [g|]; [done|]. by subst.
Qed.

(** C5, as stated, fails: the text has two hall gain lines, the last one
    inside the target block, and the parsed hall gain is that of the first. *)
Lemma hall_gain_counterexample :
  omap hall_gain_text hall_inside_text = ["-3"; "-6"] /\
  py_float "-6" = Ret (-6)%float /\
  ((-3) =? (-6))%float = false /\
  exists spec, parse_spec_file hall_inside_text = Ret (Parsed spec) /\
    hall_gain_db spec = (-3)%float.
Proof.
  split; [vm_compute; reflexivity|]. split; [vm_compute; reflexivity|].
  split; [vm_compute; reflexivity|].
  eexists. split; vm_compute; reflexivity.
Qed.

(** C5, amended. The hall gain of a parsed Spec is the value of the last
    hall gain line among the lines outside the target blocks, and zero when
    there is none: a target block takes every line up to its end, hall gain
    lines included; a signal block takes none from this pass. *)
Theorem hall_gain_is_last_outside_target (lines : list string) (spec : Spec) :
  parse_spec_file lines = Ret (Parsed spec) ->
  match last_hall_gain_text lines with
  | Some g => py_float g = Ret (hall_gain_db spec)
  | None => hall_gain_db spec = 0%float
  end.
Proof.
  intros H. apply parse_spec_file_Parsed in H as (tw & H & _).
  by apply first_pass_hall_gain in H.
Qed.

(** ** The theorems at the example specification *)

Lemma hall_gain_is_last_outside_target_witness :
  parse_spec_file demo_text = Ret (Parsed demo_spec) /\
  py_float "-6" = Ret (hall_gain_db demo_spec).
Proof.
  assert (parse_spec_file demo_text = Ret (Parsed demo_spec)) as Hp
    by (vm_compute; reflexivity).
  split; [exact Hp|].
  pose proof (hall_gain_is_last_outside_target demo_text demo_spec Hp) as H.
  replace (last_hall_gain_text demo_text) with (Some "-6") in H
    by (vm_compute; reflexivity).
  exact H.
Defined.

Lemma parse_spec_file_returns_witness :
  numbers_ok demo_text = true /\
  exists spec, parse_spec_file demo_text = Ret (Parsed spec) /\
    instruments spec = ["voc"; "gtr"].
Proof.
  assert (numbers_ok demo_text = true) as Hok by (vm_compute; reflexivity).
  split; [exact Hok|].
  destruct (parse_spec_file_returns demo_text Hok) as [H _].
  replace (text_instruments demo_text) with ["voc"; "gtr"] in H
    by (vm_compute; reflexivity).
  exact H.
Defined.

Lemma component_index_bijection_witness :
  parse_spec_file demo_text = Ret (Parsed demo_spec) /\
  NoDup (instruments demo_spec) /\
  component_index demo_spec !! "gtr_direct" = Some 2 /\
  component_index demo_spec !! "gtr_early" = Some 3.
Proof.
  assert (parse_spec_file demo_text = Ret (Parsed demo_spec)) as Hp
    by (vm_compute; reflexivity).
  assert (NoDup (instruments demo_spec)) as Hn
    by (apply (@bool_decide_unpack (NoDup (instruments demo_spec)) _); vm_compute; exact I).
  split; [exact Hp|]. split; [exact Hn|].
  destruct (component_index_bijection demo_text demo_spec Hp Hn) as (_ & H & _).
  apply (H 1 "gtr"). reflexivity.
Defined.

Lemma weights_reference_known_components_witness :
  parse_spec_file demo_text = Ret (Parsed demo_spec) /\
  exists name, component_index demo_spec !! name = Some 2.
Proof.
  assert (parse_spec_file demo_text = Ret (Parsed demo_spec)) as Hp
    by (vm_compute; reflexivity).
  split; [exact Hp|].
  destruct (weights_reference_known_components demo_text demo_spec Hp) as [H _].
  apply (H {| name := "gtr"; weights := {[2 := 1%float]}; is_hall := false |} 2 1%float).
  - apply elem_of_cons. right. apply elem_of_cons. left. reflexivity.
  - reflexivity.
Defined.

Lemma add_hall_signals_appends_witness :
  parse_spec_file demo_text = Ret (Parsed demo_spec) /\
  iterates ["gtr"; "voc"] (instruments demo_spec) /\
  add_hall_signals pow_example ["gtr"; "voc"] demo_spec
    ["Gtr Hall"; "drums_hall"; "GTR_HALL"]
  = Ret (with_more_signals demo_spec
           [ {| name := "Gtr Hall";
                weights := {[3 := 0x1.009b9cf334252p-1%float]};
                is_hall := true |};
             {| name := "GTR_HALL";
                weights := {[3 := 0x1.009b9cf334252p-1%float]};
                is_hall := true |} ]).
Proof.
  assert (parse_spec_file demo_text = Ret (Parsed demo_spec)) as Hp
    by (vm_compute; reflexivity).
  assert (iterates ["gtr"; "voc"] (instruments demo_spec)) as Hit.
  { split; [apply (@bool_decide_unpack (NoDup ["gtr"; "voc"]) _); vm_compute; exact I|].
    intros instr. simpl. rewrite !elem_of_cons. tauto. }
  split; [exact Hp|]. split; [exact Hit|].
  destruct (add_hall_signals_appends pow_example demo_text demo_spec
              ["gtr"; "voc"] ["Gtr Hall"; "drums_hall"; "GTR_HALL"] Hp Hit) as [H _].
  replace (db_to_linear pow_example (hall_gain_db demo_spec))
    with (Ret (A := float) 0x1.009b9cf334252p-1%float) in H by (vm_compute; reflexivity).
  rewrite H. vm_compute. reflexivity.
Defined.

(** ** What parsing can raise *)

Lemma bind_Raise {A B} (m : res A) (f : A -> res B) (e : exn) :
  m ≫= f = Raise e -> m = Raise e \/ exists a, m = Ret a /\ f a = Raise e.
Proof.
  destruct m as [a|e']; simpl; intros H; [right; eauto|].
  left. by injection H as ->.
Qed.

Lemma py_float_Raise (s : string) (e : exn) :
  py_float s = Raise e -> bad_number e.
Proof.
  intros H. exists s. split.
  - unfold py_float, PyFloat.unsigned in H.
    destruct s as [|c s]; [by injection H as <-|].
    destruct (Char.same _ c);
      (destruct (PyFloat.scan_decimal _ _) as [a|]; [destruct (_ && _)|]);
      try discriminate H; by injection H as <-.
  - unfold float_ok. by rewrite H.
Qed.

Lemma parse_nested_target_loop_Raise (rest : list string) (instruments : list string)
    (target_weights : ODict.t (gmap string float)) (current : option string)
    (base : option nat) (e : exn) :
  current_ok target_weights current ->
  parse_nested_target_loop rest instruments target_weights current base = Raise e ->
  bad_number e.
Proof.
  revert instruments target_weights current base.
  induction rest as [|line rest IH]; intros ins tw cur base Hcur H; simpl in H; [done|].
  destruct (blank_or_comment _); [by eapply IH|].
  destruct (_ && truthy _); [done|].
  destruct (is_match (rmatch re_instrument _) && _).
  { apply bind_Raise in H as [H|(weight & _ & H)]; [by eapply py_float_Raise|].
    eapply IH; [|done].
    intros c [= <-]. rewrite odict_get_set.
    replace (str_eqb _ _) with true by (symmetry; by apply str_eqb_true). eauto. }
  destruct (is_match (rmatch re_ratio _) && _ && _) eqn:E2; [|by eapply IH].
  apply andb_true_iff in E2 as [E2 _]. apply andb_true_iff in E2 as [_ Et].
  apply truthy_opt_Some in Et as [c ->]. simpl in H.
  apply bind_Raise in H as [H|(weight & _ & H)]; [by eapply py_float_Raise|].
  destruct (Hcur c eq_refl) as [entry Hentry]. rewrite Hentry in H. simpl in H.
  eapply IH; [|done].
  intros c' [= <-]. rewrite odict_get_set.
  replace (str_eqb _ _) with true by (symmetry; by apply str_eqb_true). eauto.
Qed.

Lemma first_pass_Raise (fuel : nat) (rest : list string) (instruments : list string)
    (target_weights : ODict.t (gmap string float)) (hall : float) (e : exn) :
  first_pass fuel rest instruments target_weights hall = Raise e -> bad_number e.
Proof.
  revert rest instruments target_weights hall.
  induction fuel as [|fuel IH]; intros rest ins tw hall H; [done|].
  destruct rest as [|line rest]; simpl in H; [done|].
  destruct (str_eqb _ _).
  - apply bind_Raise in H as [H|([[ins1 tw1] rest1] & _ & H)]; [|by eapply IH].
    eapply parse_nested_target_loop_Raise; [|done]. by intros c.
  - destruct (is_match _); [|by eapply IH].
    apply bind_Raise in H as [H|(gain & _ & H)]; [by eapply py_float_Raise|by eapply IH].
Qed.

Lemma parse_signal_components_loop_Raise (parts : list string) (signal_name : string)
    (component_index : gmap string nat) (result : gmap nat float) (e : exn) :
  parse_signal_components_loop parts signal_name component_index result = Raise e ->
  bad_number e.
Proof.
  revert result. induction parts as [|part parts IH]; intros result H; simpl in H; [done|].
  destruct (is_match _); [|by eapply IH].
  apply bind_Raise in H as [H|(weight & _ & H)]; [by eapply py_float_Raise|].
  destruct (component_index !! _); by eapply IH.
Qed.

Lemma parse_nested_signal_loop_Raise (rest : list string)
    (component_index : gmap string nat) (weights : gmap nat float)
    (current : option string) (current_weight : float) (base : option nat) (e : exn) :
  parse_nested_signal_loop rest component_index weights current current_weight base
    = Raise e ->
  bad_number e.
Proof.
  revert weights current current_weight base.
  induction rest as [|line rest IH]; intros w cur cw base H; simpl in H; [done|].
  destruct (blank_or_comment _); [by eapply IH|].
  destruct (_ && truthy _); [done|].
  destruct (is_match (rmatch re_instrument _) && _).
  { apply bind_Raise in H as [H|(weight & _ & H)]; [by eapply py_float_Raise|by eapply IH]. }
  destruct (is_match (rmatch re_ratio _) && _ && _); [|by eapply IH].
  apply bind_Raise in H as [H|(weight & _ & H)]; [by eapply py_float_Raise|].
  destruct (component_index !! _); by eapply IH.
Qed.

Lemma second_pass_Raise (fuel : nat) (rest : list string)
    (component_index : gmap string nat) (signals : list Signal) (e : exn) :
  second_pass fuel rest component_index signals = Raise e -> bad_number e.
Proof.
  revert rest signals. induction fuel as [|fuel IH]; intros rest sigs H; [done|].
  destruct rest as [|line rest]; simpl in H; [done|].
  destruct (blank_or_comment _); [by eapply IH|].
  destruct (is_match (rmatch re_signal_nested _)).
  { apply bind_Raise in H as [H|([w rest1] & _ & H)]; [|by eapply IH].
    by eapply parse_nested_signal_loop_Raise. }
  destruct (is_match _); [|by eapply IH].
  apply bind_Raise in H as [H|(w & _ & H)]; [|by eapply IH].
  by eapply parse_signal_components_loop_Raise.
Qed.

(** X1. Once the lines of the file have been read, the only exception
    parsing them can raise is the [ValueError] of [float] on a captured
    number text it does not accept; in particular no dictionary access of
    the parser ever raises [KeyError]. Opening and reading the file come
    before the lines and are not covered. *)
Theorem parse_spec_file_raises_only_ValueError (lines : list string) (e : exn) :
  parse_spec_file lines = Raise e ->
  exists s, e = ValueError s /\ float_ok s = false.
Proof.
  unfold parse_spec_file. intros H.
  apply bind_Raise in H as [H|([[ins tw] hall] & Hfirst & H)];
    [by eapply first_pass_Raise|].
  destruct ins as [|instr ins]; [done|].
  set (index := build_component_index (build_components (instr :: ins))) in H.
  destruct (build_target_returns tw index ∅) as [target Htarget].
  { intros k Hin.
    assert (k ∈ instr :: ins) as Hk.
    { eapply first_pass_keys; [|exact Hfirst|exact Hin]. by intros k' Hk'. }
    split; apply build_component_index_is_Some, elem_of_build_components; eauto. }
  rewrite Htarget in H. simpl in H.
  apply bind_Raise in H as [H|(sigs & _ & H)]; [|done].
  by eapply second_pass_Raise.
Qed.

Lemma parse_spec_file_raises_only_ValueError_witness :
  parse_spec_file (text ["target:"; "  voc: 1.2.3"]) = Raise (ValueError "1.2.3") /\
  exists s, ValueError "1.2.3" = ValueError s /\ float_ok s = false.
Proof.
  assert (parse_spec_file (text ["target:"; "  voc: 1.2.3"]) = Raise (ValueError "1.2.3"))
    as H by (vm_compute; reflexivity).
  split; [exact H|].
  exact (parse_spec_file_raises_only_ValueError _ _ H).
Defined.

(** ** The index with repeated names *)

Lemma index_fold_last (l : list string) (n : nat) (m : gmap string nat)
    (name : string) (i : nat) :
  fold_left index_step (enumerate_from n l) m !! name = Some i ->
  (exists j, i = n + j /\ l !! j = Some name /\
     forall j', j < j' -> l !! j' <> Some name)
  \/ ((name ∉ l) /\ m !! name = Some i).
Proof.
  revert n m. induction l as [|x l IH]; intros n m H; simpl in H.
  - right. split; [apply not_elem_of_nil | done].
  - destruct (IH _ _ H) as [(j & -> & Hj & Hlater)|[Hn Hm]].
    + left. exists (S j). split; [lia|]. split; [done|].
      intros [|j'] Hlt; [lia|]. simpl. apply Hlater. lia.
    + destruct (decide (name = x)) as [->|Hne].
      * rewrite lookup_insert_eq in Hm. injection Hm as <-.
        left. exists 0. split; [lia|]. split; [done|].
        intros [|j'] Hlt; [lia|]. simpl. intros Hj'.
        apply Hn. by eapply list_elem_of_lookup_2.
      * rewrite lookup_insert_ne in Hm by done.
        right. split; [|done]. apply not_elem_of_cons. done.
Qed.

Lemma index_fold_last_lookup (l : list string) (n : nat) (m : gmap string nat)
    (name : string) (j : nat) :
  l !! j = Some name -> (forall j', j < j' -> l !! j' <> Some name) ->
  fold_left index_step (enumerate_from n l) m !! name = Some (n + j).
Proof.
  revert n m j. induction l as [|x l IH]; intros n m j Hj Hlater; [done|].
  destruct j as [|j]; simpl in *.
  - injection Hj as ->. rewrite index_fold_not_in.
    + rewrite lookup_insert_eq. f_equal. lia.
    + intros Hin. apply list_elem_of_lookup_1 in Hin as [j' Hj'].
      by apply (Hlater (S j')); [lia|].
  - rewrite (IH (S n) _ j); [f_equal; lia | done |].
    intros j' Hlt. apply (Hlater (S j')). lia.
Qed.

(** X2. Whatever the component list, repeated names included, the index
    maps a name to the position of its last occurrence, and holds nothing
    else. *)
Theorem build_component_index_last_occurrence (components : list string)
    (name : string) (i : nat) :
  build_component_index components !! name = Some i <->
  components !! i = Some name /\
  forall j, i < j -> components !! j <> Some name.
Proof.
  split.
  - intros H. apply index_fold_last in H as [(j & -> & Hj & Hlater)|[_ H]].
    + done.
    + by rewrite lookup_empty in H.
  - intros [Hi Hlater]. by apply (index_fold_last_lookup _ 0 ∅ _ i).
Qed.

(** ** What a target block returns *)

Lemma odict_keys_set_iff {V} (k x : string) (v : V) (d : ODict.t V) :
  x ∈ ODict.keys (ODict.set k v d) <-> x = k \/ x ∈ ODict.keys d.
Proof.
  split; [apply odict_keys_set|].
  unfold ODict.keys. induction d as [|[k0 v0] d IH]; simpl.
  - intros [->|H]; [apply elem_of_cons; by left | by apply elem_of_nil in H].
  - destruct (str_eqb k k0) eqn:E; simpl.
    + apply str_eqb_true in E as <-. rewrite !elem_of_cons. tauto.
    + rewrite !elem_of_cons. intros [->|[->|H]]; [right|left|right]; auto.
Qed.

Lemma odict_set_NoDup {V} (k : string) (v : V) (d : ODict.t V) :
  NoDup (ODict.keys d) -> NoDup (ODict.keys (ODict.set k v d)).
Proof.
  unfold ODict.keys. induction d as [|[k0 v0] d IH]; simpl; intros Hnd.
  - apply NoDup_singleton.
  - apply NoDup_cons in Hnd as [Hk0 Hnd].
    destruct (str_eqb k k0) eqn:E; simpl.
    + apply str_eqb_true in E as <-. by apply NoDup_cons.
    + apply NoDup_cons. split; [|by apply IH].
      intros Hin. apply (odict_keys_set_iff k k0 v d) in Hin as [->|Hin]; [|done].
      apply str_eqb_false in E. done.
Qed.

Lemma odict_set_Forall {V} (P : string * V -> Prop) (k : string) (v : V) (d : ODict.t V) :
  (forall k', P (k', v)) -> Forall P d -> Forall P (ODict.set k v d).
Proof.
  intros Hv. induction d as [|[k0 v0] d IH]; simpl; intros Hd.
  - apply Forall_singleton. apply Hv.
  - apply Forall_cons in Hd as [H0 Hd].
    destruct (str_eqb k k0); apply Forall_cons; auto.
Qed.

Lemma odict_get_Forall {V} (P : string * V -> Prop) (k : string) (v : V) (d : ODict.t V) :
  Forall P d -> ODict.get k d = Some v -> exists k', P (k', v).
Proof.
  induction d as [|[k0 v0] d IH]; simpl; intros Hd H; [done|].
  apply Forall_cons in Hd as [H0 Hd].
  destruct (str_eqb k k0); [|by apply IH].
  injection H as <-. eauto.
Qed.

Lemma parse_nested_target_loop_ok (rest : list string) (instruments : list string)
    (target_weights : ODict.t (gmap string float)) (current : option string)
    (base : option nat) instruments' target_weights' rest' :
  target_weights_ok instruments target_weights ->
  parse_nested_target_loop rest instruments target_weights current base
    = Ret (instruments', target_weights', rest') ->
  target_weights_ok instruments' target_weights'.
Proof.
  revert instruments target_weights current base.
  induction rest as [|line rest IH]; intros ins tw cur base Hok H; simpl in H.
  - by injection H as <- <- _.
  - destruct (blank_or_comment _); [by eapply IH|].
    destruct (_ && truthy _); [by injection H as <- <- _|].
    destruct Hok as (Hsame & Hnd & Hw).
    destruct (is_match _ && _).
    { apply bind_Ret in H as (weight & _ & H). eapply IH; [|done].
      split; [|split].
      - intros x. rewrite elem_of_app, elem_of_cons, elem_of_nil, odict_keys_set_iff, Hsame.
        tauto.
      - by apply odict_set_NoDup.
      - apply odict_set_Forall; [|done]. intros k'. unfold has_weight. simpl.
        rewrite lookup_singleton_eq. eauto. }
    destruct (_ && _ && _); [|by eapply IH].
    apply bind_Ret in H as (weight & _ & H).
    apply bind_Ret in H as (entry & Hentry & H).
    eapply IH; [|done].
    destruct (ODict.get _ tw) as [e|] eqn:E; [|done]. injection Hentry as ->.
    split; [|split].
    + intros x. rewrite odict_keys_set_iff, Hsame.
      split; [tauto|]. intros [->|?]; [|done]. by eapply odict_get_keys.
    + by apply odict_set_NoDup.
    + apply odict_set_Forall; [|done]. intros k'.
      destruct (odict_get_Forall _ _ _ _ Hw E) as [k0 [w0 Hw0]].
      unfold has_weight. simpl in *.
      destruct (decide (group (rmatch re_ratio (strip line)) 1 = "weight")) as [->|Hne].
      * rewrite lookup_insert_eq. eauto.
      * rewrite lookup_insert_ne by done. eauto.
Qed.

(** X3. A target block returns an instrument list and a weight dictionary
    over the same names; the dictionary has each name once, even when the
    list repeats it, every entry has its ["weight"] key, and the lines left
    are those after the end of the block. *)
Theorem parse_nested_target_result (rest : list string) instruments target_weights rest' :
  parse_nested_target rest = Ret (instruments, target_weights, rest') ->
  (forall x, x ∈ instruments <-> x ∈ ODict.keys target_weights) /\
  NoDup (ODict.keys target_weights) /\
  (forall x entry, ODict.get x target_weights = Some entry ->
     is_Some (entry !! "weight")) /\
  rest' = block_end rest None.
Proof.
  intros H. unfold parse_nested_target in H.
  assert (target_weights_ok [] []) as Hinit.
  { split; [|split]; [done | apply NoDup_nil_2 | apply Forall_nil_2]. }
  pose proof (parse_nested_target_loop_ok _ _ _ _ _ _ _ _ Hinit H) as (Hsame & Hnd & Hw).
  split; [done|]. split; [done|]. split.
  - intros x entry Hget. by destruct (odict_get_Forall _ _ _ _ Hw Hget) as [k' Hk'].
  - by eapply parse_nested_target_loop_rest.
Qed.

Lemma parse_nested_target_result_witness :
  parse_nested_target (text ["  voc: 1"; "  gtr: 2"; "  voc: 3"; "    early: 1"; "x"])
    = Ret (["voc"; "gtr"; "voc"],
           [("voc", <["early" := 1%float]> {["weight" := 3%float]});
            ("gtr", {["weight" := 2%float]})],
           text ["x"]) /\
  NoDup (ODict.keys [("voc", <["early" := 1%float]> ({["weight" := 3%float]} : gmap string float));
                     ("gtr", {["weight" := 2%float]})]).
Proof.
  assert (parse_nested_target (text ["  voc: 1"; "  gtr: 2"; "  voc: 3"; "    early: 1"; "x"])
    = Ret (["voc"; "gtr"; "voc"],
           [("voc", <["early" := 1%float]> {["weight" := 3%float]});
            ("gtr", {["weight" := 2%float]})],
           text ["x"])) as H by (vm_compute; reflexivity).
  split; [exact H|].
  exact (proj1 (proj2 (parse_nested_target_result _ _ _ _ H))).
Defined.

(** ** The target mapping *)

Lemma first_pass_ok (fuel : nat) (rest : list string) (instruments : list string)
    (target_weights : ODict.t (gmap string float)) (hall : float)
    instruments' target_weights' hall' :
  target_weights_ok instruments target_weights ->
  first_pass fuel rest instruments target_weights hall
    = Ret (instruments', target_weights', hall') ->
  target_weights_ok instruments' target_weights'.
Proof.
  revert rest instruments target_weights hall.
  induction fuel as [|fuel IH]; intros rest ins tw hall Hok H.
  - simpl in H. by injection H as <- <- _.
  - destruct rest as [|line rest]; simpl in H; [by injection H as <- <- _|].
    destruct (str_eqb _ _).
    + apply bind_Ret in H as ([[ins1 tw1] rest1] & H1 & H).
      eapply IH; [|done].
      eapply parse_nested_target_loop_ok; [|done].
      split; [|split]; [done | apply NoDup_nil_2 | apply Forall_nil_2].
    + destruct (is_match _); [|by eapply IH].
      apply bind_Ret in H as (gain & _ & H). by eapply IH.
Qed.

Lemma build_target_dom (items : ODict.t (gmap string float))
    (component_index : gmap string nat) (target target' : gmap nat float) (idx : nat) :
  build_target items component_index target = Ret target' ->
  is_Some (target' !! idx) <->
  is_Some (target !! idx) \/
  exists k, k ∈ ODict.keys items /\
    (component_index !! (k +:+ "_direct") = Some idx \/
     component_index !! (k +:+ "_early") = Some idx).
Proof.
  revert target. induction items as [|[instr weights] items IH]; intros target H; simpl in H.
  - injection H as <-. split; [by left|]. intros [?|(k & Hk & _)]; [done|].
    by apply elem_of_nil in Hk.
  - apply bind_Ret in H as (d & Hd & H). apply bind_Ret in H as (e & He & H).
    destruct (component_index !! (instr +:+ "_direct")) as [d'|] eqn:Ed; [|done].
    destruct (component_index !! (instr +:+ "_early")) as [e'|] eqn:Ee; [|done].
    injection Hd as ->. injection He as ->.
    rewrite (IH _ H). unfold ODict.keys. simpl.
    rewrite !lookup_insert_is_Some. split.
    + intros [[->|[_ [->|[_ Ht]]]]|(k & Hk & Hc)].
      * right. exists instr. split; [apply elem_of_cons; by left | by right].
      * right. exists instr. split; [apply elem_of_cons; by left | by left].
      * by left.
      * right. exists k. split; [apply elem_of_cons; by right | done].
    + intros [Ht|(k & Hk & Hc)].
      * left. destruct (decide (e = idx)); [by left | right; split; [done|]].
        destruct (decide (d = idx)); [by left | right; by split].
      * apply elem_of_cons in Hk as [->|Hk]; [|right; eauto].
        left. destruct Hc as [Hc|Hc].
        -- rewrite Ed in Hc. injection Hc as ->.
           destruct (decide (e = idx)); [by left | right; split; [done|by left]].
        -- rewrite Ee in Hc. injection Hc as ->. by left.
Qed.

Lemma parsed_target_in_index (lines : list string) (spec : Spec) (idx : nat) :
  parse_spec_file lines = Ret (Parsed spec) ->
  is_Some (target spec !! idx) ->
  exists name, component_index spec !! name = Some idx.
Proof.
  intros H. apply parse_spec_file_Parsed in H as (tw & _ & _ & _ & _ & Ht & _).
  rewrite (build_target_dom _ _ _ _ idx Ht).
  intros [Hempty|(k & _ & [Hk|Hk])]; [|eauto..].
  rewrite lookup_empty in Hempty. by destruct Hempty.
Qed.

(** X4. In a parsed Spec the target mapping has an entry exactly at the
    indices the component index mapping assigns: no target entry lies
    outside the index, and every indexed component has its target. *)
Theorem target_domain (lines : list string) (spec : Spec) (idx : nat) :
  parse_spec_file lines = Ret (Parsed spec) ->
  is_Some (target spec !! idx) <->
  exists name, component_index spec !! name = Some idx.
Proof.
  intros H. split; [by apply (parsed_target_in_index lines)|].
  apply parse_spec_file_Parsed in H as (tw & Hfirst & _ & Hc & Hi & Ht & _).
  assert (target_weights_ok (instruments spec) tw) as (Hsame & _ & _).
  { eapply first_pass_ok; [|done].
    split; [|split]; [done | apply NoDup_nil_2 | apply Forall_nil_2]. }
  rewrite (build_target_dom _ _ _ _ idx Ht).
  intros [name Hname]. right.
  pose proof Hname as Hpos. rewrite Hi in Hpos.
  apply build_component_index_inv in Hpos.
  apply list_elem_of_lookup_2 in Hpos. rewrite Hc in Hpos.
  apply elem_of_build_components in Hpos as (instr & Hin & [->| ->]);
    exists instr; (split; [by apply Hsame|]); [by left | by right].
Qed.

Lemma target_domain_witness :
  parse_spec_file demo_text = Ret (Parsed demo_spec) /\
  is_Some (target demo_spec !! 3).
Proof.
  assert (parse_spec_file demo_text = Ret (Parsed demo_spec)) as Hp
    by (vm_compute; reflexivity).
  split; [exact Hp|].
  apply (target_domain demo_text demo_spec 3 Hp).
  exists "gtr_early". reflexivity.
Defined.

(** ** Frame of the hall augmenter *)

Lemma second_pass_not_hall (fuel : nat) (rest : list string)
    (component_index : gmap string nat) (signals result : list Signal) :
  Forall (fun signal => is_hall signal = false) signals ->
  second_pass fuel rest component_index signals = Ret result ->
  Forall (fun signal => is_hall signal = false) result.
Proof.
  revert rest signals. induction fuel as [|fuel IH]; intros rest sigs Hk H.
  - simpl in H. by injection H as <-.
  - destruct rest as [|line rest]; simpl in H; [by injection H as <-|].
    destruct (blank_or_comment _); [by eapply IH|].
    destruct (is_match (rmatch re_signal_nested _)).
    { apply bind_Ret in H as ([w rest'] & Hw & H).
      eapply IH; [|done]. apply Forall_app. split; [done|]. by apply Forall_singleton. }
    destruct (is_match _); [|by eapply IH].
    apply bind_Ret in H as (w & Hw & H).
    eapply IH; [|done]. apply Forall_app. split; [done|]. by apply Forall_singleton.
Qed.

Lemma hall_like_cons (spec : Spec) (track_name : string) (track_names : list string)
    (gain : float) (signal : Signal) :
  hall_like spec track_names gain signal ->
  hall_like spec (track_name :: track_names) gain signal.
Proof.
  intros (? & ? & ?). split; [done|]. split; [|done]. apply elem_of_cons. by right.
Qed.

Lemma with_more_signals_nil (spec : Spec) : with_more_signals spec [] = spec.
Proof. unfold with_more_signals. rewrite app_nil_r. by destruct spec. Qed.

Lemma with_more_signals_append (spec : Spec) (signal : Signal) (more : list Signal) :
  with_more_signals (append_signal spec signal) more
  = with_more_signals spec (signal :: more).
Proof. unfold with_more_signals, append_signal. simpl. by rewrite <- app_assoc. Qed.

Lemma hall_track_loop_frame (track_names order : list string) (spec0 spec : Spec)
    (gain : float) :
  component_index spec = component_index spec0 ->
  exists appended,
    hall_track_loop track_names order spec gain = with_more_signals spec appended /\
    Forall (hall_like spec0 track_names gain) appended.
Proof.
  revert spec. induction track_names as [|track_name l IH]; intros spec Hci; simpl.
  - exists []. by rewrite with_more_signals_nil.
  - rewrite hall_instrument_loop_find.
    destruct (List.find _ order) as [instr|];
      [destruct (component_index spec !! (instr +:+ "_early")) as [idx|] eqn:E|].
    + destruct (IH (append_signal spec
                      {| name := track_name; weights := {[idx := gain]}; is_hall := true |}))
        as (more & -> & Hmore); [done|].
      eexists (_ :: more). rewrite with_more_signals_append. split; [done|].
      apply Forall_cons. split.
      * split; [done|]. split; [apply elem_of_cons; by left|].
        exists idx. split; [done|]. exists instr. by rewrite <- Hci.
      * eapply Forall_impl; [exact Hmore|]. apply hall_like_cons.
    + destruct (IH spec Hci) as (more & -> & Hmore). exists more. split; [done|].
      eapply Forall_impl; [exact Hmore|]. apply hall_like_cons.
    + destruct (IH spec Hci) as (more & -> & Hmore). exists more. split; [done|].
      eapply Forall_impl; [exact Hmore|]. apply hall_like_cons.
Qed.

(** X5. Whatever the Spec and the names, the augmenter either raises the
    overflow of the linear gain, having appended nothing, or returns the Spec
    with signals appended at the end and nothing else changed: the existing
    signals keep their places, and every appended signal is a hall signal
    named after a supplied name whose only weight is the linear gain under
    the index of an early component. *)
Theorem add_hall_signals_frame (py_pow : float -> float -> res float)
    (order : list string) (spec : Spec) (track_names : list string) :
  match add_hall_signals py_pow order spec track_names with
  | Ret spec' =>
      exists gain appended,
        db_to_linear py_pow (hall_gain_db spec) = Ret gain /\
        spec' = with_more_signals spec appended /\
        length appended <= length track_names /\
        Forall (fun signal =>
                  is_hall signal = true /\ name signal ∈ track_names /\
                  exists idx, weights signal = {[idx := gain]} /\
                    exists instr, component_index spec !! (instr +:+ "_early") = Some idx)
               appended
  | Raise e => db_to_linear py_pow (hall_gain_db spec) = Raise e
  end.
Proof.
  unfold add_hall_signals.
  destruct (db_to_linear py_pow (hall_gain_db spec)) as [gain|e]; simpl; [|done].
  destruct (hall_track_loop_frame track_names order spec spec gain eq_refl)
    as (appended & Heq & Hall).
  exists gain, appended. split; [done|]. split; [done|]. split; [|done].
  destruct (hall_track_loop_at_most track_names order spec gain) as (more & Hmore & Hlen).
  rewrite Heq in Hmore. simpl in Hmore. apply app_inv_head in Hmore. by subst.
Qed.

(** X6. The result of the augmenter does not depend on the order in which
    the set of instruments is iterated. *)
Theorem add_hall_signals_order_independent (py_pow : float -> float -> res float)
    (order order' : list string) (spec : Spec) (track_names : list string) :
  iterates order (instruments spec) -> iterates order' (instruments spec) ->
  add_hall_signals py_pow order spec track_names
  = add_hall_signals py_pow order' spec track_names.
Proof.
  intros Hit Hit'. unfold add_hall_signals.
  destruct (db_to_linear py_pow (hall_gain_db spec)) as [gain|e]; simpl; [|done].
  by rewrite !(hall_track_loop_omap _ _ spec).
Qed.

Lemma add_hall_signals_order_independent_witness :
  iterates ["gtr"; "voc"] (instruments demo_spec) /\
  iterates ["voc"; "gtr"] (instruments demo_spec) /\
  add_hall_signals pow_example ["gtr"; "voc"] demo_spec ["Voc Hall"; "gtr_hall"]
  = add_hall_signals pow_example ["voc"; "gtr"] demo_spec ["Voc Hall"; "gtr_hall"].
Proof.
  assert (iterates ["gtr"; "voc"] (instruments demo_spec)) as H1.
  { split; [apply (@bool_decide_unpack (NoDup ["gtr"; "voc"]) _); vm_compute; exact I|].
    intros instr. simpl. rewrite !elem_of_cons. tauto. }
  assert (iterates ["voc"; "gtr"] (instruments demo_spec)) as H2.
  { split; [apply (@bool_decide_unpack (NoDup ["voc"; "gtr"]) _); vm_compute; exact I|].
    intros instr. simpl. tauto. }
  split; [exact H1|]. split; [exact H2|].
  exact (add_hall_signals_order_independent pow_example _ _ demo_spec _ H1 H2).
Defined.

(** ** Letter case in hall names *)

Lemma char_lower_idempotent (c : ascii) : Char.lower (Char.lower c) = Char.lower c.
Proof. destruct c as [[] [] [] [] [] [] [] []]; vm_compute; reflexivity. Qed.

Lemma has_upper_append (a b : string) :
  has_upper (a +:+ b) = has_upper a || has_upper b.
Proof. induction a as [|c a IH]; simpl; [done|]. by rewrite IH, orb_assoc. Qed.

Lemma normalize_no_upper (track_name : string) : has_upper (normalize track_name) = false.
Proof.
  unfold normalize, replace_space, lower.
  induction track_name as [|c s IH]; simpl; [done|].
  rewrite IH, orb_false_r. apply negb_false_iff, Ascii.eqb_eq.
  destruct (Char.same " " (Char.lower c)); [reflexivity|].
  apply char_lower_idempotent.
Qed.

(** X7. An instrument whose declared name has a character that
    [str.lower] changes (an upper case letter) never receives a hall signal:
    the supplied names are compared in lower case with the name as declared,
    so no supplied name matches it. *)
Theorem upper_case_instrument_has_no_hall (instr : string) :
  has_upper instr = true ->
  forall track_name spec gain,
    normalize track_name <> instr +:+ "_hall" /\
    hall_instrument_loop [instr] spec gain track_name (normalize track_name) = spec.
Proof.
  intros Hup track_name spec gain.
  assert (normalize track_name <> instr +:+ "_hall") as Hne.
  { intros H. apply (f_equal has_upper) in H.
    rewrite normalize_no_upper, has_upper_append, Hup in H. done. }
  split; [done|]. simpl.
  by replace (str_eqb _ _) with false by (symmetry; by apply str_eqb_false).
Qed.

Lemma upper_case_instrument_has_no_hall_witness :
  has_upper "Gtr" = true /\
  hall_instrument_loop ["Gtr"] demo_spec 1%float "Gtr_Hall" (normalize "Gtr_Hall")
  = demo_spec.
Proof.
  assert (has_upper "Gtr" = true) as H by (vm_compute; reflexivity).
  split; [exact H|].
  exact (proj2 (upper_case_instrument_has_no_hall "Gtr" H "Gtr_Hall" demo_spec 1%float)).
Defined.

(** ** Success and the diagnostic *)

Lemma SFcompare_Lt_Gt (x y : spec_float) :
  SFcompare x y = Some Lt -> SFcompare y x = Some Gt.
Proof.
  destruct x as [sx|sx| |sx mx ex], y as [sy|sy| |sy my ey]; simpl; try done;
    try (destruct sx; done); try (destruct sy; done);
    try (destruct sx, sy; done).
  assert (Pos.compare_cont Eq my mx = CompOpp (Pos.compare_cont Eq mx my)) as Hm
    by (by rewrite Pos.compare_cont_antisym).
  rewrite (Z.compare_antisym ex ey), Hm.
  destruct sx, sy; try done;
    destruct (ex ?= ey)%Z; simpl; try done;
    destruct (Pos.compare_cont Eq mx my); simpl; done.
Qed.

Lemma ltb_asymmetric (x y : float) : (x <? y)%float = true -> (y <? x)%float = false.
Proof.
  rewrite !ltb_spec. unfold SFltb.
  destruct (SFcompare (Prim2SF x) (Prim2SF y)) as [[]|] eqn:E; try done.
  intros _. by rewrite (SFcompare_Lt_Gt _ _ E).
Qed.

(** X8. A successful result carries no diagnostic: when [success] is true
    the [error_message] is [None]. *)
Theorem success_has_no_error_message (components : list string)
    (achieved target : list float) (error : float) (solver_success : bool) :
  Report.success (report components achieved target error solver_success) = true ->
  Report.error_message (report components achieved target error solver_success) = None.
Proof.
  simpl. intros [_ H]%andb_true_iff. unfold make_error_message.
  by rewrite (ltb_asymmetric _ _ H).
Qed.

Lemma success_has_no_error_message_witness :
  Report.success (report ["voc_direct"] [1%float] [1%float] 0%float true) = true /\
  Report.error_message (report ["voc_direct"] [1%float] [1%float] 0%float true) = None.
Proof.
  assert (Report.success (report ["voc_direct"] [1%float] [1%float] 0%float true) = true)
    as H by (vm_compute; reflexivity).
  split; [exact H|].
  exact (success_has_no_error_message _ _ _ _ _ H).
Defined.

(** ** The achieved mix *)

Lemma odict_set_fresh {V} (k : string) (v : V) (d : ODict.t V) :
  k ∉ ODict.keys d -> ODict.set k v d = d ++ [(k, v)].
Proof.
  unfold ODict.keys. induction d as [|[k0 v0] d IH]; simpl; intros Hk; [done|].
  apply not_elem_of_cons in Hk as [Hne Hk].
  replace (str_eqb k k0) with false by (symmetry; by apply str_eqb_false).
  by rewrite IH.
Qed.

Lemma build_achieved_mix_keys (rows : list (nat * string)) (achieved target : list float)
    (mix : ODict.t Report.entry) :
  NoDup (ODict.keys mix) ->
  NoDup (ODict.keys (build_achieved_mix rows achieved target mix)) /\
  forall x, x ∈ ODict.keys (build_achieved_mix rows achieved target mix) <->
            x ∈ ODict.keys mix \/ x ∈ map snd rows.
Proof.
  revert mix. induction rows as [|[i name] rows IH]; intros mix Hnd; simpl.
  - split; [done|]. intros x. rewrite elem_of_nil. tauto.
  - destruct (IH (ODict.set name (mix_entry achieved target i name).2 mix)) as [H1 H2];
      [by apply odict_set_NoDup|].
    split; [exact H1|]. intros x. unfold mix_entry in H2. simpl in H2.
    rewrite H2, odict_keys_set_iff, elem_of_cons. tauto.
Qed.

Lemma build_achieved_mix_NoDup (l : list string) (n : nat) (achieved target : list float)
    (mix : ODict.t Report.entry) :
  NoDup l -> (forall x, x ∈ l -> x ∉ ODict.keys mix) ->
  build_achieved_mix (enumerate_from n l) achieved target mix
  = mix ++ imap (fun i name => mix_entry achieved target (n + i) name) l.
Proof.
  revert n mix. induction l as [|x l IH]; intros n mix Hnd Hfresh; simpl.
  - by rewrite app_nil_r.
  - apply NoDup_cons in Hnd as [Hx Hnd].
    rewrite odict_set_fresh by (apply Hfresh, elem_of_cons; by left).
    rewrite IH; [|done|].
    + rewrite <- app_assoc. simpl. unfold mix_entry. rewrite Nat.add_0_r.
      do 2 f_equal. apply imap_ext. intros i y _. simpl. do 4 f_equal; lia.
    + intros y Hy. unfold ODict.keys. rewrite map_app, elem_of_app. simpl.
      intros [Hin|Hin].
      * apply (Hfresh y); [apply elem_of_cons; by right | done].
      * apply elem_of_cons in Hin as [->|Hin]; [done | by apply elem_of_nil in Hin].
Qed.

Lemma map_snd_enumerate_from {A} (n : nat) (l : list A) :
  map snd (enumerate_from n l) = l.
Proof. revert n. induction l as [|x l IH]; intros n; simpl; [done | by rewrite IH]. Qed.

(** X9. The achieved mix has one entry per component name: its keys are the
    component names, each once even when the component list repeats a name.
    When the component names are distinct the entries follow the component
    order and entry [i] holds [achieved[i]], [target[i]] and their
    difference. *)
Theorem achieved_mix_entries (components : list string) (achieved target : list float)
    (error : float) (solver_success : bool) :
  let mix := Report.achieved_mix (report components achieved target error solver_success) in
  NoDup (ODict.keys mix) /\
  (forall name, name ∈ ODict.keys mix <-> name ∈ components) /\
  (NoDup components ->
   mix = imap (fun i name => mix_entry achieved target i name) components).
Proof.
  simpl.
  destruct (build_achieved_mix_keys (enumerate_from 0 components) achieved target [])
    as [Hnd Hkeys]; [apply NoDup_nil_2|].
  split; [done|]. split.
  - intros name. rewrite Hkeys, map_snd_enumerate_from. unfold ODict.keys. simpl.
    rewrite elem_of_nil. tauto.
  - intros Hc. rewrite build_achieved_mix_NoDup; [done | done |].
    intros x _. apply not_elem_of_nil.
Qed.

(** ** Blocks that start at the first column *)

Lemma block_end_base_zero (rest : list string) : block_end rest (Some 0) = [].
Proof.
  induction rest as [|line rest IH]; simpl; [done|].
  by destruct (blank_or_comment _).
Qed.

Lemma block_end_first_column (rest : list string) :
  first_content_indent rest = Some 0 -> block_end rest None = [].
Proof.
  induction rest as [|line rest IH]; simpl; [done|].
  destruct (blank_or_comment _); [done|].
  intros [= ->]. simpl. apply block_end_base_zero.
Qed.

(** X10. A block whose first content line starts at the first column never
    ends: the target parser and the nested signal parser then take every
    remaining line, and return none to the loop that called them. *)
Theorem unindented_block_takes_all (rest : list string) :
  first_content_indent rest = Some 0 ->
  (forall instruments target_weights rest',
     parse_nested_target rest = Ret (instruments, target_weights, rest') -> rest' = []) /\
  (forall component_index weights rest',
     parse_nested_signal rest component_index = Ret (weights, rest') -> rest' = []).
Proof.
  intros H0. split.
  - intros ins tw rest' H. apply parse_nested_target_loop_rest in H as ->.
    by apply block_end_first_column.
  - intros ci w rest' H. apply parse_nested_signal_loop_rest in H as ->.
    by apply block_end_first_column.
Qed.

Lemma unindented_block_takes_all_witness :
  first_content_indent (text ["voc: 1.0"; "hall gain: -6"; "signal voc: 1.0 direct"])
    = Some 0 /\
  forall instruments target_weights rest',
    parse_nested_target (text ["voc: 1.0"; "hall gain: -6"; "signal voc: 1.0 direct"])
      = Ret (instruments, target_weights, rest') -> rest' = [].
Proof.
  assert (first_content_indent (text ["voc: 1.0"; "hall gain: -6"; "signal voc: 1.0 direct"])
            = Some 0) as H by (vm_compute; reflexivity).
  split; [exact H|].
  exact (proj1 (unindented_block_takes_all _ H)).
Defined.

(** ** The track names *)

Lemma rstrip_idempotent (s : string) : rstrip (rstrip s) = rstrip s.
Proof.
  induction s as [|c s IH]; simpl; [done|].
  destruct (rstrip s) as [|d r] eqn:E.
  - destruct (Char.isspace c) eqn:Ec; simpl; [done | by rewrite Ec].
  - simpl in IH |- *. by rewrite IH.
Qed.

Lemma rstrip_lstrip (s : string) : rstrip s = s -> rstrip (lstrip s) = lstrip s.
Proof.
  induction s as [|c s IH]; simpl; [done|].
  destruct (Char.isspace c) eqn:Ec.
  - destruct (rstrip s) as [|d r] eqn:E; [done|].
    intros [= Hs]. by apply IH.
  - intros H. simpl. rewrite Ec. exact H.
Qed.

Lemma lstrip_idempotent (s : string) : lstrip (lstrip s) = lstrip s.
Proof.
  induction s as [|c s IH]; simpl; [done|].
  destruct (Char.isspace c) eqn:Ec; [done|]. simpl. by rewrite Ec.
Qed.

Lemma strip_idempotent (s : string) : strip (strip s) = strip s.
Proof.
  unfold strip. rewrite (rstrip_lstrip (rstrip s)) by apply rstrip_idempotent.
  apply lstrip_idempotent.
Qed.

(** X11. The track names [main] reads are the stripped non-blank lines, in
    order: no name is empty, none has white space at either end, and blank
    lines leave no name. *)
Theorem read_track_names_stripped (lines : list string) :
  Forall (fun track_name => track_name <> EmptyString /\ strip track_name = track_name)
    (read_track_names lines) /\
  length (read_track_names lines) <= length lines /\
  (forall track_name, track_name ∈ read_track_names lines <->
     track_name <> EmptyString /\ exists line, line ∈ lines /\ strip line = track_name).
Proof.
  induction lines as [|line lines (IH1 & IH2 & IH3)]; simpl.
  - split; [done|]. split; [lia|]. intros x. rewrite elem_of_nil.
    split; [done|]. intros (_ & l & Hl & _). by apply elem_of_nil in Hl.
  - destruct (truthy (strip line)) eqn:E.
    + split; [|split].
      * apply Forall_cons. split; [|done]. split; [|apply strip_idempotent].
        intros H. by rewrite H in E.
      * simpl. lia.
      * intros x. rewrite elem_of_cons, IH3. split.
        -- intros [->|(Hx & l & Hl & <-)].
           ++ split; [intros H; by rewrite H in E|]. exists line.
              split; [apply elem_of_cons; by left | done].
           ++ split; [done|]. exists l. split; [apply elem_of_cons; by right | done].
        -- intros (Hx & l & Hl & <-). apply elem_of_cons in Hl as [->|Hl]; [by left|].
           right. split; [done|]. by exists l.
    + split; [done|]. split; [lia|]. intros x. rewrite IH3. split.
      * intros (Hx & l & Hl & <-). split; [done|]. exists l.
        split; [apply elem_of_cons; by right | done].
      * intros (Hx & l & Hl & <-). split; [done|].
        apply elem_of_cons in Hl as [->|Hl]; [|by exists l].
        destruct (strip line); done.
Qed.

(** ** The matrices *)

Lemma matrix_ext (A B : list (list float)) (rows columns : nat) :
  shape A rows columns -> shape B rows columns ->
  (forall i j, i < rows -> j < columns -> cell A i j = cell B i j) ->
  A = B.
Proof.
  intros [HlA HfA] [HlB HfB] Hcell. apply list_eq. intros i.
  destruct (decide (i < rows)) as [Hi|Hi].
  - destruct (lookup_lt_is_Some_2 A i) as [ra Hra]; [lia|].
    destruct (lookup_lt_is_Some_2 B i) as [rb Hrb]; [lia|].
    rewrite Hra, Hrb. f_equal.
    assert (length ra = columns) as Hla
      by (rewrite Forall_forall in HfA; eapply HfA, list_elem_of_lookup_2, Hra).
    assert (length rb = columns) as Hlb
      by (rewrite Forall_forall in HfB; eapply HfB, list_elem_of_lookup_2, Hrb).
    apply list_eq. intros j. destruct (decide (j < columns)) as [Hj|Hj].
    + specialize (Hcell i j Hi Hj). unfold cell in Hcell. by rewrite Hra, Hrb in Hcell.
    + rewrite !lookup_ge_None_2; [done | lia | lia].
  - rewrite !lookup_ge_None_2; [done | lia | lia].
Qed.

Lemma set_cell_spec (A : list (list float)) (rows columns idx j : nat) (weight : float) :
  shape A rows columns -> idx < rows -> j < columns ->
  exists A', set_cell A idx j weight = Some A' /\ shape A' rows columns /\
    forall i j', cell A' i j' =
      if decide (i = idx /\ j' = j) then Some weight else cell A i j'.
Proof.
  intros [Hl Hf] Hidx Hj. unfold set_cell.
  destruct (lookup_lt_is_Some_2 A idx) as [row Hrow]; [lia|]. rewrite Hrow.
  assert (length row = columns) as Hlr
    by (rewrite Forall_forall in Hf; eapply Hf, list_elem_of_lookup_2, Hrow).
  replace (j <? length row)%nat with true by (symmetry; apply Nat.ltb_lt; lia).
  eexists. split; [done|]. split.
  - split; [by rewrite length_insert|].
    apply Forall_insert; [done|]. by rewrite length_insert.
  - intros i j'. unfold cell. destruct (decide (i = idx)) as [->|Hne].
    + rewrite list_lookup_insert_eq by lia. rewrite Hrow.
      destruct (decide (j' = j)) as [->|Hnej].
      * rewrite list_lookup_insert_eq by lia. by rewrite decide_True.
      * rewrite list_lookup_insert_ne by done. rewrite decide_False; [done | tauto].
    + rewrite list_lookup_insert_ne by done. rewrite decide_False; [done | tauto].
Qed.

Lemma fill_column_spec (items : list (nat * float)) (A : list (list float))
    (rows columns j : nat) :
  shape A rows columns -> j < columns ->
  NoDup items.*1 -> Forall (fun item => item.1 < rows) items ->
  exists A', fill_column A j items = Some A' /\ shape A' rows columns /\
    forall i j', cell A' i j' =
      if decide (j' = j) then
        match (list_to_map items : gmap nat float) !! i with
        | Some weight => Some weight
        | None => cell A i j'
        end
      else cell A i j'.
Proof.
  revert A. induction items as [|[idx weight] items IH]; intros A Hs Hj Hnd Hr; simpl.
  - exists A. split; [done|]. split; [done|]. intros i j'. rewrite lookup_empty.
    by destruct (decide _).
  - apply NoDup_cons in Hnd as [Hidx Hnd]. apply Forall_cons in Hr as [Hlt Hr].
    simpl in Hlt.
    destruct (set_cell_spec A rows columns idx j weight Hs Hlt Hj) as (A1 & -> & Hs1 & Hc1).
    simpl. destruct (IH A1 Hs1 Hj Hnd Hr) as (A' & -> & Hs' & Hc').
    exists A'. split; [done|]. split; [done|]. intros i j'. rewrite Hc', Hc1.
    destruct (decide (j' = j)) as [->|Hnej].
    + destruct (decide (i = idx)) as [->|Hne].
      * rewrite lookup_insert_eq.
        rewrite (not_elem_of_list_to_map_1 _ idx) by done.
        by rewrite decide_True.
      * rewrite lookup_insert_ne by done.
        rewrite decide_False; [done | tauto].
    + rewrite decide_False; [done | tauto].
Qed.

Lemma fill_signals_spec (sigs : list Signal) (n : nat) (A : list (list float))
    (rows columns : nat) :
  shape A rows columns -> n + length sigs <= columns ->
  Forall (fun signal => forall idx, is_Some (weights signal !! idx) -> idx < rows) sigs ->
  exists A', fill_signals A (enumerate_from n sigs) = Some A' /\ shape A' rows columns /\
    forall i j, cell A' i j =
      match sigs !! (j - n) with
      | Some signal =>
          if decide (n <= j) then
            match weights signal !! i with
            | Some weight => Some weight
            | None => cell A i j
            end
          else cell A i j
      | None => cell A i j
      end.
Proof.
  revert n A. induction sigs as [|signal sigs IH]; intros n A Hs Hlen Hr; simpl.
  - exists A. split; [done|]. split; [done|]. intros i j.
    by destruct (decide (n <= j)).
  - apply Forall_cons in Hr as [Hsig Hr]. simpl in Hlen.
    destruct (fill_column_spec (map_to_list (weights signal)) A rows columns n)
      as (A1 & -> & Hs1 & Hc1); [done | lia | apply NoDup_fst_map_to_list | |].
    { apply Forall_forall. intros [idx w] Hin. simpl.
      apply Hsig. apply elem_of_map_to_list in Hin. eauto. }
    simpl. destruct (IH (S n) A1 Hs1) as (A' & -> & Hs' & Hc'); [lia | done |].
    exists A'. split; [done|]. split; [done|]. intros i j. rewrite Hc', Hc1.
    rewrite list_to_map_to_list.
    destruct (decide (j = n)) as [->|Hne].
    + rewrite Nat.sub_diag. simpl.
      replace (n - S n) with 0 by lia.
      rewrite decide_True by lia.
      destruct (sigs !! 0); [rewrite decide_False by lia|]; done.
    + destruct (decide (n <= j)) as [Hle|Hgt].
      * replace (j - n) with (S (j - S n)) by lia. simpl.
        destruct (sigs !! (j - S n)); [|done].
        rewrite decide_True by lia. done.
      * replace (j - n) with 0 by lia. replace (j - S n) with 0 by lia. simpl.
        destruct (sigs !! 0); [rewrite decide_False by lia|]; done.
Qed.

Lemma fill_target_spec (items : list (nat * float)) (target : list float) (rows : nat) :
  length target = rows ->
  NoDup items.*1 -> Forall (fun item => item.1 < rows) items ->
  exists target', fill_target target items = Some target' /\ length target' = rows /\
    forall i, target' !! i =
      match (list_to_map items : gmap nat float) !! i with
      | Some weight => if decide (i < rows) then Some weight else None
      | None => target !! i
      end.
Proof.
  revert target. induction items as [|[idx weight] items IH]; intros target Hl Hnd Hr; simpl.
  - exists target. split; [done|]. split; [done|]. intros i. by rewrite lookup_empty.
  - apply NoDup_cons in Hnd as [Hidx Hnd]. apply Forall_cons in Hr as [Hlt Hr].
    simpl in Hlt.
    replace (idx <? length target)%nat with true by (symmetry; apply Nat.ltb_lt; lia).
    destruct (IH (<[idx := weight]> target)) as (target' & -> & Hl' & Hc');
      [by rewrite length_insert | done | done |].
    exists target'. split; [done|]. split; [done|]. intros i. rewrite Hc'.
    destruct (decide (i = idx)) as [->|Hne].
    + rewrite lookup_insert_eq.
      rewrite (not_elem_of_list_to_map_1 _ idx) by done.
      rewrite list_lookup_insert_eq by lia. by rewrite decide_True.
    + rewrite lookup_insert_ne by done.
      destruct (list_to_map items !! i); [done|].
      by rewrite list_lookup_insert_ne.
Qed.

Lemma cell_replicate (rows columns i j : nat) (x : float) :
  i < rows -> j < columns -> cell (replicate rows (replicate columns x)) i j = Some x.
Proof.
  intros Hi Hj. unfold cell.
  rewrite lookup_replicate_2 by done. by rewrite lookup_replicate_2.
Qed.

(** X12. When every index the signals and the target mention is below the
    number of components, the assignments of [build_matrices] raise no
    [IndexError] and give the arrays in closed form: [A[c][s]] is the weight
    signal [s] stores under [c], else zero; [target[c]] is the target entry
    of [c], else zero. *)
Theorem build_matrices_loop_closed_form (spec : Spec) :
  indices_in_range spec ->
  build_matrices_loop spec = Some (build_matrices spec).
Proof.
  intros [Hsig Htgt]. unfold build_matrices_loop, build_matrices.
  set (nc := length (components spec)). set (ns := length (signals spec)).
  destruct (fill_signals_spec (signals spec) 0 (replicate nc (replicate ns 0%float)) nc ns)
    as (A & -> & HsA & HcA).
  { split; [by rewrite length_replicate|].
    apply Forall_replicate. by rewrite length_replicate. }
  { simpl. fold ns. lia. }
  { apply Forall_forall. intros signal Hin idx. by apply Hsig. }
  simpl.
  destruct (fill_target_spec (map_to_list (target spec)) (replicate nc 0%float) nc)
    as (tgt & -> & Hlt & Hct);
    [by rewrite length_replicate | apply NoDup_fst_map_to_list | |].
  { apply Forall_forall. intros [idx w] Hin. simpl. apply Htgt.
    apply elem_of_map_to_list in Hin. eauto. }
  simpl.
  assert (A = map (fun i => map (fun signal => default 0%float (weights signal !! i))
                             (signals spec)) (seq 0 nc)) as ->.
  { eapply matrix_ext; [exact HsA| |].
    - split; [by rewrite length_map, length_seq|].
      apply Forall_map, Forall_forall. intros i _. simpl. by rewrite length_map.
    - intros i j Hi Hj. rewrite HcA, Nat.sub_0_r.
      destruct (lookup_lt_is_Some_2 (signals spec) j) as [signal Hsignal]; [done|].
      rewrite Hsignal, decide_True by lia.
      rewrite cell_replicate by done. unfold cell.
      rewrite list_lookup_fmap, lookup_seq_lt by done. simpl.
      rewrite list_lookup_fmap, Hsignal. simpl.
      by destruct (weights signal !! i). }
  assert (tgt = map (fun i => default 0%float (target spec !! i)) (seq 0 nc)) as ->.
  { apply list_eq. intros i. rewrite Hct, list_to_map_to_list, list_lookup_fmap.
    destruct (decide (i < nc)) as [Hi|Hi].
    - rewrite lookup_seq_lt by done. simpl.
      destruct (target spec !! i); simpl; [done|].
      by rewrite lookup_replicate_2.
    - rewrite lookup_seq_ge by lia. simpl.
      destruct (target spec !! i) as [w|] eqn:E.
      + exfalso. apply Hi, Htgt. eauto.
      + apply lookup_replicate_None. lia. }
  done.
Qed.

Lemma parsed_index_bound (lines : list string) (spec : Spec) (name : string) (idx : nat) :
  parse_spec_file lines = Ret (Parsed spec) ->
  component_index spec !! name = Some idx -> idx < length (components spec).
Proof.
  intros H Hname. apply parse_spec_file_Parsed in H as (_ & _ & _ & _ & Hi & _).
  rewrite Hi in Hname. apply build_component_index_inv in Hname.
  by eapply lookup_lt_Some.
Qed.

(** X13. A parsed Spec, before and after the hall augmenter, mentions only
    indices below the number of components: every weight index of every
    signal, the appended hall signals included, and every target index. *)
Theorem pipeline_indices_in_range (py_pow : float -> float -> res float)
    (lines : list string) (spec spec' : Spec) (order track_names : list string) :
  parse_spec_file lines = Ret (Parsed spec) ->
  add_hall_signals py_pow order spec track_names = Ret spec' ->
  indices_in_range spec /\ indices_in_range spec'.
Proof.
  intros Hparse Hadd.
  assert (indices_in_range spec) as Hspec.
  { split.
    - intros signal idx Hin [w Hw].
      pose proof Hparse as Hp.
      apply parse_spec_file_Parsed in Hp as (_ & _ & _ & _ & _ & _ & Hs).
      apply second_pass_known in Hs; [|by apply Forall_nil].
      rewrite Forall_forall in Hs. destruct (Hs signal Hin idx w Hw) as [name Hname].
      by eapply parsed_index_bound.
    - intros idx Hidx. apply (parsed_target_in_index lines spec idx Hparse) in Hidx
        as [name Hname].
      by eapply parsed_index_bound. }
  split; [done|].
  unfold add_hall_signals in Hadd.
  destruct (db_to_linear py_pow (hall_gain_db spec)) as [gain|e]; simpl in Hadd; [|done].
  injection Hadd as <-.
  destruct (hall_track_loop_frame track_names order spec spec gain eq_refl)
    as (appended & -> & Happ).
  destruct Hspec as [Hsig Htgt]. split; [|done]. simpl.
  intros signal idx Hin Hidx. apply elem_of_app in Hin as [Hin|Hin]; [by eapply Hsig|].
  rewrite Forall_forall in Happ.
  destruct (Happ signal Hin) as (_ & _ & i & Hw & instr & Hinstr).
  rewrite Hw in Hidx. destruct Hidx as [w Hw'].
  apply lookup_singleton_Some in Hw' as [<- _].
  by eapply parsed_index_bound.
Qed.

Lemma pipeline_indices_in_range_witness :
  parse_spec_file demo_text = Ret (Parsed demo_spec) /\
  add_hall_signals pow_example ["gtr"; "voc"] demo_spec ["Gtr Hall"]
    = Ret (with_more_signals demo_spec
             [ {| name := "Gtr Hall";
                  weights := {[3 := 0x1.009b9cf334252p-1%float]};
                  is_hall := true |} ]) /\
  indices_in_range (with_more_signals demo_spec
             [ {| name := "Gtr Hall";
                  weights := {[3 := 0x1.009b9cf334252p-1%float]};
                  is_hall := true |} ]).
Proof.
  assert (parse_spec_file demo_text = Ret (Parsed demo_spec)) as Hp
    by (vm_compute; reflexivity).
  assert (add_hall_signals pow_example ["gtr"; "voc"] demo_spec ["Gtr Hall"]
    = Ret (with_more_signals demo_spec
             [ {| name := "Gtr Hall";
                  weights := {[3 := 0x1.009b9cf334252p-1%float]};
                  is_hall := true |} ])) as Ha by (vm_compute; reflexivity).
  split; [exact Hp|]. split; [exact Ha|].
  exact (proj2 (pipeline_indices_in_range pow_example _ _ _ _ _ Hp Ha)).
Defined.

Lemma build_matrices_loop_closed_form_witness :
  indices_in_range demo_spec /\
  build_matrices_loop demo_spec = Some (build_matrices demo_spec).
Proof.
  assert (indices_in_range demo_spec) as H.
  { unfold indices_in_range, demo_spec. cbn [signals target components length].
    split.
    - intros signal idx Hin [w Hw].
      apply elem_of_cons in Hin as [->|Hin].
      + cbn [weights] in Hw. apply lookup_singleton_Some in Hw as [<- _]. lia.
      + apply elem_of_cons in Hin as [->|Hin]; [|by apply elem_of_nil in Hin].
        cbn [weights] in Hw. apply lookup_singleton_Some in Hw as [<- _]. lia.
    - intros idx [w Hw].
      destruct (decide (idx < 4)) as [|Hge]; [done|].
      rewrite !lookup_insert_ne in Hw by lia. by rewrite lookup_empty in Hw. }
  split; [exact H|]. exact (build_matrices_loop_closed_form demo_spec H).
Defined.

(** ** The levels *)

Section LevelsProperties.

Variable np_log10 : float -> float.

Lemma build_levels_keys (rows : list (nat * string)) (solution is_hall : list float)
    (levels : ODict.t Level.entry) :
  NoDup (ODict.keys levels) ->
  NoDup (ODict.keys (build_levels np_log10 rows solution is_hall levels)) /\
  forall x, x ∈ ODict.keys (build_levels np_log10 rows solution is_hall levels) <->
            x ∈ ODict.keys levels \/ x ∈ map snd rows.
Proof.
  revert levels. induction rows as [|[j name] rows IH]; intros levels Hnd; simpl.
  - split; [done|]. intros x. rewrite elem_of_nil. tauto.
  - destruct (IH (ODict.set name (level_entry np_log10 solution is_hall j) levels))
      as [H1 H2]; [by apply odict_set_NoDup|].
    split; [exact H1|]. intros x.
    rewrite H2, odict_keys_set_iff, elem_of_cons. tauto.
Qed.

Lemma build_levels_not_in (l : list string) (n : nat) (solution is_hall : list float)
    (levels : ODict.t Level.entry) (name : string) :
  name ∉ l ->
  ODict.get name (build_levels np_log10 (enumerate_from n l) solution is_hall levels)
  = ODict.get name levels.
Proof.
  revert n levels. induction l as [|x l IH]; intros n levels Hn; simpl; [done|].
  apply not_elem_of_cons in Hn as [Hx Hl].
  rewrite IH by done. rewrite odict_get_set.
  by replace (str_eqb name x) with false by (symmetry; by apply str_eqb_false).
Qed.

Lemma build_levels_last (l : list string) (n : nat) (solution is_hall : list float)
    (levels : ODict.t Level.entry) (name : string) (j : nat) :
  l !! j = Some name -> (forall j', j < j' -> l !! j' <> Some name) ->
  ODict.get name (build_levels np_log10 (enumerate_from n l) solution is_hall levels)
  = Some (level_entry np_log10 solution is_hall (n + j)).
Proof.
  revert n levels j. induction l as [|x l IH]; intros n levels j Hj Hlater; [done|].
  destruct j as [|j]; simpl in *.
  - injection Hj as ->. rewrite build_levels_not_in.
    + rewrite odict_get_set, Nat.add_0_r.
      by replace (str_eqb name name) with true by (symmetry; by apply str_eqb_true).
    + intros Hin. apply list_elem_of_lookup_1 in Hin as [j' Hj'].
      by apply (Hlater (S j')); [lia|].
  - rewrite (IH (S n) _ j); [do 2 f_equal; lia | done |].
    intros j' Hlt. apply (Hlater (S j')). lia.
Qed.

Lemma build_levels_Forall (P : string * Level.entry -> Prop) (rows : list (nat * string))
    (solution is_hall : list float) (levels : ODict.t Level.entry) :
  (forall k j, P (k, level_entry np_log10 solution is_hall j)) ->
  Forall P levels ->
  Forall P (build_levels np_log10 rows solution is_hall levels).
Proof.
  intros HP. revert levels. induction rows as [|[j name] rows IH]; intros levels Hl; simpl.
  - done.
  - apply IH. apply odict_set_Forall; [|done]. intros k'. apply HP.
Qed.

(** X14. The levels are keyed by signal name: there is one entry per
    distinct name, and when two signals share a name the entry is that of
    the later one. Every entry whose linear gain is not positive has the
    floor of -150 dB, whatever the logarithm. *)
Theorem levels_entries (signal_names : list string) (solution is_hall : list float) :
  let levels := build_levels np_log10 (enumerate_from 0 signal_names) solution is_hall [] in
  NoDup (ODict.keys levels) /\
  (forall name, name ∈ ODict.keys levels <-> name ∈ signal_names) /\
  (forall j name,
     signal_names !! j = Some name ->
     (forall j', j < j' -> signal_names !! j' <> Some name) ->
     ODict.get name levels = Some (level_entry np_log10 solution is_hall j)) /\
  (forall name level,
     ODict.get name levels = Some level ->
     (Level.linear level <=? 0)%float = true -> Level.db level = (-150)%float).
Proof.
  simpl.
  destruct (build_levels_keys (enumerate_from 0 signal_names) solution is_hall [])
    as [Hnd Hkeys]; [apply NoDup_nil_2|].
  split; [done|]. split; [|split].
  - intros name. rewrite Hkeys, map_snd_enumerate_from. unfold ODict.keys. simpl.
    rewrite elem_of_nil. tauto.
  - intros j name Hj Hlater. by rewrite (build_levels_last _ 0 _ _ _ name j).
  - intros name level Hget Hle.
    pose proof (build_levels_Forall
      (fun item => (Level.linear item.2 <=? 0)%float = true ->
                   Level.db item.2 = (-150)%float)
      (enumerate_from 0 signal_names) solution is_hall []) as HF.
    destruct (odict_get_Forall _ _ _ _ (HF ltac:(intros k j; simpl; unfold linear_to_db;
      by intros ->) (Forall_nil_2 _)) Hget) as [k' Hk'].
    by apply Hk'.
Qed.

End LevelsProperties.

(** ** The hall indicator *)

(** X15. After parsing and augmenting, the hall indicator that
    [build_matrices] returns is zero for every signal of the specification
    text and one for every signal the augmenter appended, in that order. *)
Theorem hall_indicator_marks_appended (py_pow : float -> float -> res float)
    (lines : list string) (spec spec' : Spec) (order track_names : list string) :
  parse_spec_file lines = Ret (Parsed spec) ->
  add_hall_signals py_pow order spec track_names = Ret spec' ->
  (build_matrices spec').1.2
  = replicate (length (signals spec)) 0%float
    ++ replicate (length (signals spec') - length (signals spec)) 1%float.
Proof.
  intros Hparse Hadd.
  apply parse_spec_file_Parsed in Hparse as (_ & _ & _ & _ & _ & _ & Hs).
  apply second_pass_not_hall in Hs; [|by apply Forall_nil].
  unfold add_hall_signals in Hadd.
  destruct (db_to_linear py_pow (hall_gain_db spec)) as [gain|e]; simpl in Hadd; [|done].
  injection Hadd as <-.
  destruct (hall_track_loop_frame track_names order spec spec gain eq_refl)
    as (appended & -> & Happ).
  unfold build_matrices. simpl. rewrite map_app, length_app. f_equal.
  - induction Hs as [|signal sigs Hsignal _ IH]; simpl; [done|]. by rewrite Hsignal, IH.
  - rewrite Nat.add_comm, Nat.add_sub.
    induction Happ as [|signal sigs (Hsignal & _) _ IH]; simpl; [done|].
    by rewrite Hsignal, IH.
Qed.

Lemma hall_indicator_marks_appended_witness :
  parse_spec_file demo_text = Ret (Parsed demo_spec) /\
  add_hall_signals pow_example ["gtr"; "voc"] demo_spec ["Gtr Hall"]
    = Ret (with_more_signals demo_spec
             [ {| name := "Gtr Hall";
                  weights := {[3 := 0x1.009b9cf334252p-1%float]};
                  is_hall := true |} ]) /\
  (build_matrices (with_more_signals demo_spec
             [ {| name := "Gtr Hall";
                  weights := {[3 := 0x1.009b9cf334252p-1%float]};
                  is_hall := true |} ])).1.2
  = [0%float; 0%float; 1%float].
Proof.
  assert (parse_spec_file demo_text = Ret (Parsed demo_spec)) as Hp
    by (vm_compute; reflexivity).
  assert (add_hall_signals pow_example ["gtr"; "voc"] demo_spec ["Gtr Hall"]
    = Ret (with_more_signals demo_spec
             [ {| name := "Gtr Hall";
                  weights := {[3 := 0x1.009b9cf334252p-1%float]};
                  is_hall := true |} ])) as Ha by (vm_compute; reflexivity).
  split; [exact Hp|]. split; [exact Ha|].
  exact (hall_indicator_marks_appended pow_example _ _ _ _ _ Hp Ha).
Defined.

(** ** The report and the index agree on repeated names *)

Lemma build_achieved_mix_not_in (l : list string) (n : nat) (achieved target : list float)
    (mix : ODict.t Report.entry) (name : string) :
  name ∉ l ->
  ODict.get name (build_achieved_mix (enumerate_from n l) achieved target mix)
  = ODict.get name mix.
Proof.
  revert n mix. induction l as [|x l IH]; intros n mix Hn; simpl; [done|].
  apply not_elem_of_cons in Hn as [Hx Hl].
  rewrite IH by done. rewrite odict_get_set.
  by replace (str_eqb name x) with false by (symmetry; by apply str_eqb_false).
Qed.

Lemma build_achieved_mix_last (l : list string) (n : nat) (achieved target : list float)
    (mix : ODict.t Report.entry) (name : string) (j : nat) :
  l !! j = Some name -> (forall j', j < j' -> l !! j' <> Some name) ->
  ODict.get name (build_achieved_mix (enumerate_from n l) achieved target mix)
  = Some (mix_entry achieved target (n + j) name).2.
Proof.
  revert n mix j. induction l as [|x l IH]; intros n mix j Hj Hlater; [done|].
  destruct j as [|j]; simpl in *.
  - injection Hj as ->. rewrite build_achieved_mix_not_in.
    + rewrite odict_get_set, Nat.add_0_r.
      by replace (str_eqb name name) with true by (symmetry; by apply str_eqb_true).
    + intros Hin. apply list_elem_of_lookup_1 in Hin as [j' Hj'].
      by apply (Hlater (S j')); [lia|].
  - rewrite (IH (S n) _ j); [by replace (S n + j) with (n + S j) by lia | done |].
    intros j' Hlt. apply (Hlater (S j')). lia.
Qed.

(** X16. Under each component name the achieved mix reports the row that
    the component index assigns to that name, also when an instrument is
    declared twice and its names occur twice in the component list. *)
Theorem achieved_mix_follows_index (components : list string)
    (achieved target : list float) (error : float) (solver_success : bool)
    (name : string) (i : nat) :
  build_component_index components !! name = Some i ->
  ODict.get name
    (Report.achieved_mix (report components achieved target error solver_success))
  = Some {| Report.achieved := nth i achieved 0%float;
            Report.target := nth i target 0%float;
            Report.diff := (nth i achieved 0 - nth i target 0)%float |}.
Proof.
  intros H. apply index_fold_last in H as [(j & -> & Hj & Hlater)|[_ H]].
  - simpl. by rewrite (build_achieved_mix_last _ 0 _ _ _ name j).
  - by rewrite lookup_empty in H.
Qed.

Lemma achieved_mix_follows_index_witness :
  build_component_index ["a_direct"; "a_early"; "a_direct"; "a_early"] !! "a_direct"
    = Some 2 /\
  ODict.get "a_direct"
    (Report.achieved_mix
       (report ["a_direct"; "a_early"; "a_direct"; "a_early"]
          [0%float; 0%float; 1%float; 0%float] [0%float; 0%float; 1%float; 0%float]
          0%float true))
  = Some {| Report.achieved := 1%float; Report.target := 1%float;
            Report.diff := (1 - 1)%float |}.
Proof.
  assert (build_component_index ["a_direct"; "a_early"; "a_direct"; "a_early"]
            !! "a_direct" = Some 2) as H by (vm_compute; reflexivity).
  split; [exact H|].
  exact (achieved_mix_follows_index _ [0%float; 0%float; 1%float; 0%float]
           [0%float; 0%float; 1%float; 0%float] 0%float true _ _ H).
Defined.

(** ** Inline signals keep every known token *)

Lemma parse_signal_components_loop_keeps (parts : list string) (signal_name : string)
    (component_index : gmap string nat) (result weights : gmap nat float) (idx : nat) :
  parse_signal_components_loop parts signal_name component_index result = Ret weights ->
  is_Some (result !! idx) -> is_Some (weights !! idx).
Proof.
  revert result. induction parts as [|part parts IH]; intros result H Hidx; simpl in H.
  - by injection H as <-.
  - destruct (is_match _); [|by eapply IH].
    apply bind_Ret in H as (weight & _ & H).
    destruct (component_index !! _) as [i|]; [|by eapply IH].
    eapply IH; [done|]. apply lookup_insert_is_Some.
    destruct (decide (i = idx)); [by left | by right].
Qed.

(** X17. When the component list of an inline signal parses, every token
    of it that names a component of the index, the bare [direct] standing
    for the signal's own direct component, has an entry in the weights
    under that component's index: only unknown names are dropped. *)
Theorem parse_signal_components_keeps_known (component_str signal_name : string)
    (component_index : gmap string nat) (weights : gmap nat float) :
  parse_signal_components component_str signal_name component_index = Ret weights ->
  forall part name idx,
    part ∈ split_comma component_str ->
    token_component signal_name part = Some name ->
    component_index !! name = Some idx ->
    is_Some (weights !! idx).
Proof.
  unfold parse_signal_components. generalize (∅ : gmap nat float) as result.
  induction (split_comma component_str) as [|p parts IH];
    intros result H part name idx Hin Htok Hname.
  - by apply elem_of_nil in Hin.
  - apply elem_of_cons in Hin as [->|Hin].
    + simpl in H. unfold token_component in Htok.
      destruct (is_match _); [|done]. injection Htok as Htok.
      apply bind_Ret in H as (weight & _ & H).
      rewrite Htok, Hname in H.
      eapply parse_signal_components_loop_keeps; [done|].
      rewrite lookup_insert_eq. eauto.
    + simpl in H. destruct (is_match _); [|by eapply IH].
      apply bind_Ret in H as (weight & _ & H).
      destruct (component_index !! _); by eapply IH.
Qed.

Lemma parse_signal_components_keeps_known_witness :
  parse_signal_components "1.0 direct, 0.2 voc_erly" "voc" (component_index demo_spec)
    = Ret {[0 := 1%float]} /\
  is_Some (({[0 := 1%float]} : gmap nat float) !! 0).
Proof.
  assert (parse_signal_components "1.0 direct, 0.2 voc_erly" "voc"
            (component_index demo_spec) = Ret {[0 := 1%float]}) as H
    by (vm_compute; reflexivity).
  split; [exact H|].
  apply (parse_signal_components_keeps_known _ _ _ _ H "1.0 direct" "voc_direct" 0).
  - apply elem_of_cons. left. reflexivity.
  - reflexivity.
  - reflexivity.
Defined.

(** ** The decibel conversions *)



Section RoundTripProperties.

Variable py_pow : float -> float -> res float.
Variable np_log10 : float -> float.


End RoundTripProperties.
